(** * randomRedisWithFuzzer: a shallow embedding of the fuzzer and its properties

    The program reads command templates from a line-oriented file, optionally
    perturbs each sampled command by inserting one special character, sends
    batches of commands through a pipelined hiredis connection, drains the
    replies and appends every completed batch to a log file.

    Strings ([std::string]) are lists of characters, [int] values are
    integers with the 32-bit wrap-around written out, the file system is a
    finite map from paths to contents, and the calls that touch the outside
    world ([rand], the file streams, hiredis) thread an explicit state.

    What the environment decides is read from oracles: the values of
    [rand], whether an output stream opens, whether the scratch file can be
    opened for reading it back, whether a reply can be read, how the
    connection attempt ends and the two file names.  Writing to a stream
    that did open always succeeds, the command file opens for reading
    exactly when it exists, and the text sent to [std::cout] and
    [std::cerr] is left out.

    hiredis is outside the program.  Every call of [redisAppendCommand] is
    recorded twice: by the [std::string] on which [c_str()] is called and by
    the C string the library receives as its format, which ends at the
    first NUL byte.  What the library does with a format that contains [%]
    (it reads arguments that the call does not pass, or refuses the format)
    is not modelled: the run goes on, and the recorded formats tell whether
    such a call was made. *)

From Stdlib Require Import ZArith Ascii String DecimalString DecimalPos.
From stdpp Require Import base gmap strings list.

Local Open Scope Z_scope.

(** ** Strings and machine integers *)

Abbreviation str := (list ascii).

Definition lit (s : string) : str := list_ascii_of_string s.

Definition newline : ascii := "010"%char.

Definition INT_MAX : Z := 2147483647.
Definition RAND_MAX : Z := 2147483647.

(** Two's-complement wrap-around of a 32-bit [int]. *)
Definition wrap_int (z : Z) : Z := (z + 2^31) mod 2^32 - 2^31.

Definition int_succ (z : Z) : Z := wrap_int (z + 1).

(** [s.c_str()] as a C function reads it: the characters before the first
    NUL byte. *)
Definition NUL : ascii := "000"%char.

Fixpoint c_str (s : str) : str :=
  match s with
  | [] => []
  | c :: s' => if decide (c = NUL) then [] else c :: c_str s'
  end.

(** [std::to_string(int)]: decimal digits, with a leading minus sign for a
    negative value. *)
Definition to_string (z : Z) : str :=
  lit (NilZero.string_of_int (Z.to_int z)).

(** ** Input streams

    An [std::ifstream] is the text that is still unread together with the
    two status bits the loops of the program observe. *)

Record ifstream := mk_ifstream {
  buf : str;
  eofbit : bool;
  failbit : bool
}.

Definition open_in (fs : gmap string str) (path : string) : ifstream :=
  match fs !! path with
  | Some content => mk_ifstream content false false
  | None => mk_ifstream [] false true
  end.

(** The extraction loop of [std::getline]: characters are moved to the line
    until the delimiter (which is consumed and dropped) or the end of the
    input (which sets [eofbit]). *)
Fixpoint extract (b : str) : str * str * bool :=
  match b with
  | [] => ([], [], true)
  | c :: b' =>
      if decide (c = newline) then ([], b', false)
      else let '(l, r, e) := extract b' in (c :: l, r, e)
  end.

(** [std::getline(file, line)]: the new stream, the new value of [line] and
    the truth value of the stream afterwards.  When the stream is not good
    on entry the sentry fails and [line] keeps its value; otherwise [line]
    is erased first, and extracting nothing at all sets [failbit]. *)
Definition getline (f : ifstream) (line : str) : ifstream * str * bool :=
  if eofbit f || failbit f then (mk_ifstream (buf f) (eofbit f) true, line, false)
  else match buf f with
       | [] => (mk_ifstream [] true true, [], false)
       | _ :: _ =>
           let '(l, r, e) := extract (buf f) in (mk_ifstream r e false, l, true)
       end.

(** ** Reading the command file *)

(** The loop of [readLineFromFile]:
    [while (std::getline(file, line) && currentLine < lineNum) currentLine++;] *)
Fixpoint readLine_loop (fuel : nat) (f : ifstream) (line : str)
    (currentLine lineNum : Z) : str :=
  match fuel with
  | O => line
  | S fuel' =>
      let '(f', line', ok) := getline f line in
      if ok && (currentLine <? lineNum)
      then readLine_loop fuel' f' line' (int_succ currentLine) lineNum
      else line'
  end.

(** Every successful [getline] consumes at least one character, so the
    length of the file plus one bounds the number of iterations. *)
Definition file_fuel (f : ifstream) : nat := S (length (buf f)).

Definition readLineFromFile (fs : gmap string str) (filePath : string)
    (lineNum : Z) : str :=
  let file := open_in fs filePath in
  readLine_loop (file_fuel file) file [] 0 lineNum.

(** The loop of [countFileLines]:
    [while (std::getline(file, line)) lineCount++;]
    The counter is a 32-bit [int] and wraps around after [INT_MAX]; the
    properties of the count are stated for files of at most [INT_MAX]
    lines, where it does not. *)
Fixpoint countLines_loop (fuel : nat) (f : ifstream) (line : str)
    (lineCount : Z) : Z :=
  match fuel with
  | O => lineCount
  | S fuel' =>
      let '(f', line', ok) := getline f line in
      if ok then countLines_loop fuel' f' line' (int_succ lineCount)
      else lineCount
  end.

Definition countFileLines (fs : gmap string str) (filePath : string) : Z :=
  let file := open_in fs filePath in
  countLines_loop (file_fuel file) file [] 0.

(** ** The outside world

    [Env] collects what the environment answers during one run; [Config] is
    the result of parsing the command line; [State] is what the run changes. *)

Inductive connect_outcome := ConnectNull | ConnectErr | ConnectOk.

Record Env := mk_Env {
  rand_src : nat -> Z;          (* the n-th value produced by rand() *)
  ofstream_ok : nat -> bool;    (* does the n-th std::ofstream open? *)
  ifstream_ok : nat -> bool;    (* does the scratch file open for reading
                                   once n output streams were constructed? *)
  reply_ok : nat -> bool;       (* does the n-th redisGetReply return REDIS_OK? *)
  connect_res : connect_outcome;
  mkstemp_res : option string;  (* the fresh name chosen by mkstemp *)
  output_name : string          (* /tmp/redis-commands-<timestamp>.log *)
}.

Record Config := mk_Config {
  ip : str;
  port : Z;
  numBatches : Z;
  commandsFile : string;
  protocolVersion : str;
  fuzzEnabled : bool
}.

Inductive ctx_state := NoContext | Live | Freed.

Record State := mk_State {
  fs : gmap string str;     (* the files *)
  rand_pos : nat;           (* calls to rand() so far *)
  opens : nat;              (* std::ofstream constructions so far *)
  pipeline : list str;      (* the commands of the calls of
                               redisAppendCommand, as std::string *)
  formats : list str;       (* the formats these calls passed, as C strings *)
  reads : nat;              (* calls to redisGetReply so far *)
  replies : nat;            (* replies obtained *)
  context : ctx_state       (* the redisContext *)
}.

Definition set_fs (f : gmap string str -> gmap string str) (st : State) : State :=
  mk_State (f (fs st)) (rand_pos st) (opens st) (pipeline st) (formats st)
    (reads st) (replies st) (context st).

Definition set_context (c : ctx_state) (st : State) : State :=
  mk_State (fs st) (rand_pos st) (opens st) (pipeline st) (formats st)
    (reads st) (replies st) c.

(** The state after [n] further calls of [rand]. *)
Definition tick_rand (n : nat) (st : State) : State :=
  mk_State (fs st) (n + rand_pos st) (opens st) (pipeline st) (formats st)
    (reads st) (replies st) (context st).

Definition tick_opens (st : State) : State :=
  mk_State (fs st) (rand_pos st) (S (opens st)) (pipeline st) (formats st)
    (reads st) (replies st) (context st).

Definition push_command (cmd : str) (st : State) : State :=
  mk_State (fs st) (rand_pos st) (opens st) (pipeline st ++ [cmd])
    (formats st ++ [c_str cmd]) (reads st) (replies st) (context st).

(** The state after one more call of [redisGetReply]. *)
Definition tick_reads (ok : bool) (st : State) : State :=
  mk_State (fs st) (rand_pos st) (opens st) (pipeline st) (formats st)
    (S (reads st))
    (if ok then S (replies st) else replies st) (context st).

(** ** Computations: a state monad with early exit

    [Exit code] is a [return code] from [main] (or a call of [exit]);
    [Crash] is an execution the language leaves undefined or that ends in an
    uncaught exception. *)

Inductive res (A : Type) := Val (a : A) | Exit (code : Z) | Crash.
Arguments Val {A} a.
Arguments Exit {A} code.
Arguments Crash {A}.

Definition prog (A : Type) : Type := State -> res A * State.

#[global] Instance prog_ret : MRet prog := λ A a st, (Val a, st).

#[global] Instance prog_bind : MBind prog := λ A B k c st,
  match c st with
  | (Val a, st') => k a st'
  | (Exit code, st') => (Exit code, st')
  | (Crash, st') => (Crash, st')
  end.

Definition exit_with {A} (code : Z) : prog A := λ st, (Exit code, st).
Definition crash {A} : prog A := λ st, (Crash, st).

(** Reading never changes the files: the functions that read take the file
    system as it is at the time of the call. *)
Definition get_fs : prog (gmap string str) := λ st, (Val (fs st), st).

(** The file that a path names, empty when there is none. *)
Definition content (m : gmap string str) (path : string) : str :=
  default [] (m !! path).

Definition append_file (path : string) (s : str) (m : gmap string str) :
    gmap string str :=
  <[path := content m path ++ s]> m.

Section Program.

Context (env : Env) (cfg : Config).

(** *** Primitive operations *)

Definition rand_val (n : nat) : Z := rand_src env n mod (RAND_MAX + 1).

Definition rand : prog Z := λ st,
  (Val (rand_val (rand_pos st)), tick_rand 1 st).

(** [std::ofstream f(path, mode)], answering [!!f].  [trunc] empties the
    file, [app] keeps what is there; both create a missing file. *)
Definition ofstream_open (path : string) (trunc : bool) : prog bool := λ st,
  let ok := ofstream_ok env (opens st) in
  (Val ok,
   tick_opens
     (if ok
      then set_fs (insert path (if trunc then [] else content (fs st) path)) st
      else st)).

(** [f << line << std::endl] on an open output stream. *)
Definition write_line (path : string) (line : str) : prog unit := λ st,
  (Val (), set_fs (append_file path (line ++ [newline])) st).

Definition write (path : string) (s : str) : prog unit := λ st,
  (Val (), set_fs (append_file path s) st).

Definition remove (path : string) : prog unit := λ st,
  (Val (), set_fs (delete path) st).

(** [std::ifstream readTempFile(path)] of line 223.  A stream that did not
    open has [failbit] set and nothing to read. *)
Definition ifstream_open (path : string) : prog ifstream := λ st,
  (Val (if ifstream_ok env (opens st) then open_in (fs st) path
        else mk_ifstream [] false true), st).

(** [redisAppendCommand(context, cmd.c_str())]: the library receives the C
    string of [cmd] as its format and no further argument; the result of the
    call is not looked at. *)
Definition redisAppendCommand (cmd : str) : prog unit := λ st,
  (Val (), push_command cmd st).

(** [redisGetReply(context, &reply) == REDIS_OK]; a reply that was obtained
    is released by the caller at once. *)
Definition redisGetReply : prog bool := λ st,
  let ok := reply_ok env (reads st) in
  (Val ok, tick_reads ok st).

Definition redisFree : prog unit := λ st, (Val (), set_context Freed st).

(** *** The functions of the program *)

Definition randomCommand (commandsFile : string) (fileLength : Z) : prog str :=
  r ← rand;
  if decide (fileLength = 0) then crash
  else
    let lineNum := Z.rem r fileLength in
    files ← get_fs;
    mret (readLineFromFile files commandsFile lineNum).

Definition specialChars : str := lit "!@#$%^&*()_-+=<>?/".

(** [s.insert(pos, 1, c)], which throws [std::out_of_range] when [pos]
    exceeds the size of [s]. *)
Definition string_insert (s : str) (pos : nat) (c : ascii) : option str :=
  if decide (pos ≤ length s)%nat then Some (take pos s ++ c :: drop pos s)
  else None.

Definition fuzzCommand (command : str) (fuzzEnabled : bool) : prog str :=
  if negb fuzzEnabled then mret command
  else
    r1 ← rand;
    if decide (length command = 0%nat) then crash
    else
      let randIndex := wrap_int (r1 mod Z.of_nat (length command)) in
      r2 ← rand;
      let randSpecialIndex := wrap_int (r2 mod Z.of_nat (length specialChars)) in
      match specialChars !! Z.to_nat randSpecialIndex with
      | None => crash
      | Some specialChar =>
          match string_insert command (Z.to_nat randIndex) specialChar with
          | None => crash
          | Some fuzzedCommand => mret fuzzedCommand
          end
      end.

Definition createTempFile : prog string := λ st,
  match mkstemp_res env with
  | None => (Exit 1, st)
  | Some name => (Val name, set_fs (insert name []) st)
  end.

Definition createOutputFile : prog string := mret (output_name env).

(** *** The body of the main loop *)

Section Batch.

Context (tempFileName outputFileName : string) (fileLength : Z).

(** [for (int i = 0; i < pipelineSize; i++)]: sample, fuzz, stage, collect. *)
Fixpoint gen_commands (n : nat) (commands : list str) : prog (list str) :=
  match n with
  | O => mret commands
  | S n' =>
      cmd ← randomCommand (commandsFile cfg) fileLength;
      fuzzedCmd ← fuzzCommand cmd (fuzzEnabled cfg);
      write_line tempFileName fuzzedCmd;;
      gen_commands n' (commands ++ [fuzzedCmd])
  end.

Definition pingCmd : str := lit "PING " ++ to_string (port cfg).

(** Lines 158-183: open the scratch file, draw the pipeline size, build the
    vector of commands and stage every command in the scratch file. *)
Definition build_batch : prog (list str) :=
  ok ← ofstream_open tempFileName true;
  if negb ok then redisFree;; exit_with 1
  else
    r ← rand;
    let pipelineSize := Z.rem r 10 + 1 in
    commands ← gen_commands (Z.to_nat pipelineSize) [];
    write_line tempFileName pingCmd;;
    mret (commands ++ [pingCmd]).

(** Lines 186-188. *)
Fixpoint send_batch (commands : list str) : prog unit :=
  match commands with
  | [] => mret ()
  | cmd :: rest => redisAppendCommand cmd;; send_batch rest
  end.

(** Lines 191-205: one reply per command, stopping at the first failure;
    the answer is the final value of [success]. *)
Fixpoint get_replies (n : nat) : prog bool :=
  match n with
  | O => mret true
  | S n' =>
      ok ← redisGetReply;
      if negb ok then mret false else get_replies n'
  end.

(** Lines 223-227: copy the scratch file to the log, line by line. *)
Fixpoint copy_lines (fuel : nat) (f : ifstream) (line : str) : prog unit :=
  match fuel with
  | O => mret ()
  | S fuel' =>
      let '(f', line', ok) := getline f line in
      if ok then write_line outputFileName line';; copy_lines fuel' f' line'
      else mret ()
  end.

(** Lines 213-229. *)
Definition log_batch (batchNum : Z) : prog unit :=
  ok ← ofstream_open outputFileName false;
  if negb ok then redisFree;; exit_with 1
  else
    write outputFileName
      (newline :: lit "BATCH NUMBER - " ++ to_string batchNum ++ [newline]);;
    readTempFile ← ifstream_open tempFileName;
    copy_lines (file_fuel readTempFile) readTempFile [].

Definition loop_body (batchNum : Z) : prog unit :=
  commands ← build_batch;
  send_batch commands;;
  success ← get_replies (length commands);
  if negb success then redisFree;; exit_with 1
  else log_batch batchNum.

(** [for (int batchNum = 1; batchNum <= numBatches; batchNum++)], as the
    number of iterations that are left.  Incrementing [INT_MAX] overflows a
    signed [int]; a counter that wrapped around would keep the loop running
    for ever, so the computation is given up there. *)
Fixpoint main_loop (remaining : nat) (batchNum : Z) : prog unit :=
  match remaining with
  | O => mret ()
  | S k =>
      loop_body batchNum;;
      if decide (batchNum = INT_MAX) then crash
      else main_loop k (batchNum + 1)
  end.

End Batch.

Definition redisConnectWithTimeout : prog connect_outcome := λ st,
  (Val (connect_res env),
   match connect_res env with
   | ConnectNull => st
   | _ => set_context Live st
   end).

(** [main] after the command line has been parsed (lines 129-236). *)
Definition main : prog Z :=
  tempFileName ← createTempFile;
  outputFileName ← createOutputFile;
  files ← get_fs;
  let fileLength := countFileLines files (commandsFile cfg) in
  if decide (fileLength = 0) then exit_with 1
  else
    c ← redisConnectWithTimeout;
    match c with
    | ConnectNull => exit_with 1
    | ConnectErr => redisFree;; exit_with 1
    | ConnectOk =>
        main_loop tempFileName outputFileName fileLength
          (Z.to_nat (numBatches cfg)) 1;;
        redisFree;;
        remove tempFileName;;
        mret 0
    end.

End Program.

(** The exit status of a run, if it has one. *)
Definition exit_code (r : res Z) : option Z :=
  match r with
  | Val code | Exit code => Some code
  | Crash => None
  end.

(** ** Text files and their lines *)

Definition newline_free (l : str) : Prop := newline ∉ l.

(** The text of a file whose lines are [ls], each one terminated. *)
Definition unlines (ls : list str) : str :=
  concat (map (λ l, l ++ [newline]) ls).

(** Every text is [unlines init ++ tail] for lines [init] and an
    unterminated rest [tail]; a non-empty [tail] counts as a last line. *)
Definition text_lines (init : list str) (tail : str) : list str :=
  init ++ (if decide (tail = []) then [] else [tail]).

(** ** Vocabulary of the properties *)

(** A state that differs from [st] in its files and in the number of
    random values drawn, and in nothing else. *)
Definition staged (m : gmap string str) (p : nat) (st : State) : State :=
  mk_State m p (opens st) (pipeline st) (formats st) (reads st) (replies st)
    (context st).

(** The state after the commands [cmds] were handed to the connection. *)
Definition push_commands (cmds : list str) (st : State) : State :=
  mk_State (fs st) (rand_pos st) (opens st) (pipeline st ++ cmds)
    (formats st ++ map c_str cmds) (reads st) (replies st) (context st).

(** The state after [a] calls of [redisGetReply] of which [b] succeeded. *)
Definition add_reads (a b : nat) (st : State) : State :=
  mk_State (fs st) (rand_pos st) (opens st) (pipeline st) (formats st)
    (a + reads st) (b + replies st) (context st).

(** The state in which a batch [cmds], staged in [st1], has been sent and
    answered. *)
Definition answered (cmds : list str) (st1 : State) : State :=
  add_reads (length cmds) (length cmds) (push_commands cmds st1).

(** The line break and the header line that open the entry of a batch. *)
Definition log_header (batchNum : Z) : str :=
  newline :: lit "BATCH NUMBER - " ++ to_string batchNum ++ [newline].

(** The text one batch adds to the log: an empty line, the header line and
    one line per command. *)
Definition log_entry (batchNum : Z) (cmds : list str) : str :=
  log_header batchNum ++ unlines cmds.

(** The text one iteration adds to the log: the whole entry when the
    scratch file could be read back, the header alone when it could not. *)
Definition logged (readable : bool) (batchNum : Z) (cmds : list str) : str :=
  log_header batchNum ++ (if readable then unlines cmds else []).

(** The log text of consecutive batches, numbered from [batchNum]. *)
Fixpoint log_entries (batchNum : Z) (batches : list (list str)) : str :=
  match batches with
  | [] => []
  | cmds :: rest => log_entry batchNum cmds ++ log_entries (batchNum + 1) rest
  end.

(** What every step of the loop respects: the log only grows at its end and
    the scratch file stays where it is. *)
Record run_rel (tempFileName outputFileName : string) (st st' : State) :
    Prop := mk_run_rel {
  log_grows :
    content (fs st) outputFileName `prefix_of` content (fs st') outputFileName;
  scratch_kept :
    is_Some (fs st !! tempFileName) → is_Some (fs st' !! tempFileName)
}.

(** A computation is orderly when it respects [run_rel] and returns from
    [main] only with status 1 and the connection released. *)
Definition orderly (tempFileName outputFileName : string) {A} (c : prog A) :
    Prop :=
  ∀ st, run_rel tempFileName outputFileName st (c st).2 ∧
        ∀ code, (c st).1 = Exit code → code = 1 ∧ context (c st).2 = Freed.

(** ** Sample data *)

Definition sample_corpus : list str := [lit "GET k"; lit "SET k v"].

Definition sample_fs : gmap string str :=
  {[ "/root/cmds.txt"%string := unlines sample_corpus ]}.

(** A command file whose only line holds a NUL byte. *)
Definition nul_corpus : list str := [lit "GET" ++ NUL :: lit "k"].

Definition nul_fs : gmap string str :=
  {[ "/root/cmds.txt"%string := unlines nul_corpus ]}.

Definition sample_temp : string := "/tmp/redis-commands-a1B2c3".
Definition sample_output : string := "/tmp/redis-commands-20240101120000.log".

(** An environment in which every file opens except the [bad_open]-th one
    and every reply arrives except the [bad_reply]-th one. *)
Definition sample_env (bad_open bad_reply : nat) : Env :=
  mk_Env (λ n, Z.of_nat n * 7 + 2)
    (λ n, negb (Nat.eqb n bad_open)) (λ _, true)
    (λ n, negb (Nat.eqb n bad_reply))
    ConnectOk (Some sample_temp) sample_output.

(** An environment in which every output stream opens and every reply
    arrives, but the scratch file does not open for reading when [bad_read]
    output streams have been constructed. *)
Definition unreadable_env (bad_read : nat) : Env :=
  mk_Env (λ n, Z.of_nat n * 7 + 2)
    (λ _, true) (λ n, negb (Nat.eqb n bad_read)) (λ _, true)
    ConnectOk (Some sample_temp) sample_output.

Definition sample_cfg (batches : Z) (fuzz : bool) : Config :=
  mk_Config (lit "127.0.0.1") 6379 batches "/root/cmds.txt" (lit "-2") fuzz.

Definition initial (m : gmap string str) : State :=
  mk_State m 0 0 [] [] 0 0 NoContext.

(** A run of two batches without fuzzing. *)
Definition sample_run (bad_open bad_reply : nat) : res Z * State :=
  main (sample_env bad_open bad_reply) (sample_cfg 2 false) (initial sample_fs).

(** A run of two batches in which the scratch file of the first batch
    cannot be read back. *)
Definition unreadable_run : res Z * State :=
  main (unreadable_env 2) (sample_cfg 2 false) (initial sample_fs).

(** ** The command line (lines 95-127 of [main])

    [std::stoi] reads like [strtol] in base ten: white space is skipped, a
    sign is optional, then come the digits up to the first character that is
    none.  No digit at all throws [std::invalid_argument], a value outside
    [int] throws [std::out_of_range]; [None] stands for either. *)

Definition INT_MIN : Z := -2147483648.

Definition isspace (c : ascii) : bool :=
  let n := nat_of_ascii c in
  Nat.eqb n 32 || (Nat.leb 9 n && Nat.leb n 13).

Definition digit_val (c : ascii) : option Z :=
  let n := Z.of_nat (nat_of_ascii c) in
  if (48 <=? n) && (n <=? 57) then Some (n - 48) else None.

Fixpoint skip_space (s : str) : str :=
  match s with
  | c :: s' => if isspace c then skip_space s' else s
  | [] => []
  end.

Fixpoint read_digits (acc : Z) (s : str) : Z :=
  match s with
  | c :: s' =>
      match digit_val c with
      | Some d => read_digits (10 * acc + d) s'
      | None => acc
      end
  | [] => acc
  end.

Definition stoi (s : str) : option Z :=
  let s1 := skip_space s in
  let '(negative, s2) :=
    match s1 with
    | c :: r =>
        if decide (c = "-"%char) then (true, r)
        else if decide (c = "+"%char) then (false, r)
        else (false, s1)
    | [] => (false, s1)
    end in
  match s2 with
  | c :: _ =>
      match digit_val c with
      | Some _ =>
          let v := read_digits 0 s2 in
          let v := if negative then - v else v in
          if (INT_MIN <=? v) && (v <=? INT_MAX) then Some v else None
      | None => None
      end
  | [] => None
  end.

(** [s.find(c)]: the index of the first [c], [None] for [npos]. *)
Fixpoint find_char (c : ascii) (s : str) : option nat :=
  match s with
  | [] => None
  | x :: s' => if decide (x = c) then Some 0%nat else S <$> find_char c s'
  end.

Definition is_fuzz_flag (arg : str) : bool := bool_decide (arg = lit "--fuzz").

(** Lines 96-127: from [argv] to the parameters of the run.  [Exit 1] is a
    usage error, [Crash] an exception of [std::stoi] that nobody catches. *)
Definition parse_args (argv : list str) : res Config :=
  match argv with
  | _ :: ipPort :: batches :: rest =>
      match find_char ":"%char ipPort with
      | None => Exit 1
      | Some colonPos =>
          let ip := take colonPos ipPort in
          match stoi (drop (S colonPos) ipPort) with
          | None => Crash
          | Some port =>
              match stoi batches with
              | None => Crash
              | Some numBatches =>
                  let commandsFile :=
                    match rest with
                    | file :: _ => file
                    | [] => lit "/root/redisCommands30.txt"
                    end in
                  let protocolVersion :=
                    match rest with
                    | _ :: version :: _ => version
                    | _ => lit "-2"
                    end in
                  let fuzzEnabled :=
                    existsb is_fuzz_flag (ipPort :: batches :: rest) in
                  Val (mk_Config ip port numBatches
                         (string_of_list_ascii commandsFile) protocolVersion
                         fuzzEnabled)
              end
          end
      end
  | _ => Exit 1
  end.

(** The whole of [main]: the command line, then the run. *)
Definition program (env : Env) (argv : list str) : prog Z := λ st,
  match parse_args argv with
  | Val cfg => main env cfg st
  | Exit code => (Exit code, st)
  | Crash => (Crash, st)
  end.

(** ** The two file names

    [mkstemp] puts six characters in the place of [XXXXXX];
    [createOutputFile] puts the time stamp between a prefix and [.log]. *)

Definition temp_file_name (suffix : str) : string :=
  string_of_list_ascii (lit "/tmp/redis-commands-" ++ suffix).

Definition output_file_name (timestamp : str) : string :=
  string_of_list_ascii (lit "/tmp/redis-commands-" ++ timestamp ++ lit ".log").

(** ** More vocabulary *)

(** The terminated lines of a text and what follows the last line break. *)
Fixpoint split_text (text : str) : list str * str :=
  match text with
  | [] => ([], [])
  | c :: rest =>
      let '(init, tail) := split_text rest in
      if decide (c = newline) then ([] :: init, tail)
      else match init with
           | [] => ([], c :: tail)
           | l :: init' => ((c :: l) :: init', tail)
           end
  end.

(** The lines of a text, as [std::getline] delivers them. *)
Definition file_lines (text : str) : list str :=
  text_lines (split_text text).1 (split_text text).2.

(** A computation never changes the state except along [R]. *)
Definition keeps {A} (R : State → State → Prop) (c : prog A) : Prop :=
  ∀ st, R st (c st).2.

(** Every file but the scratch file and the log is as it was. *)
Definition other_files_kept (tempFileName outputFileName : string)
    (st st' : State) : Prop :=
  ∀ path, path ≠ tempFileName → path ≠ outputFileName →
          fs st' !! path = fs st !! path.

(** A format without [%]: the library copies it to the command, splitting
    it at the blanks, and reads no argument. *)
Definition conversion_free (format : str) : Prop := "%"%char ∉ format.

(** The command file holds no [%], and no format with a [%] has been passed
    to [redisAppendCommand]. *)
Definition plain (commandsFile : string) (st : State) : Prop :=
  (∀ text, fs st !! commandsFile = Some text → "%"%char ∉ text) ∧
  Forall conversion_free (formats st).

(** Started in a state that satisfies [J], a computation does not crash,
    returns from [main] with status 1 if at all, delivers a value that
    satisfies [Q] if it delivers one, and ends in a state that satisfies
    [J]. *)
Definition safe (J : State → Prop) {A} (Q : A → Prop) (c : prog A) : Prop :=
  ∀ st, J st →
        match (c st).1 with
        | Val a => Q a
        | Exit code => code = 1
        | Crash => False
        end ∧ J (c st).2.

(** * Properties *)

(** ** Machine integers *)

Lemma wrap_int_small z : - 2^31 ≤ z < 2^31 → wrap_int z = z.
Proof.
  intros Hz. unfold wrap_int.
  rewrite Z.mod_small; lia.
Qed.

Lemma int_succ_small z : - 2^31 ≤ z < INT_MAX → int_succ z = z + 1.
Proof.
  intros Hz. unfold int_succ, INT_MAX in *. apply wrap_int_small. lia.
Qed.

(** ** [c_str] *)

Lemma c_str_id (s : str) : NUL ∉ s → c_str s = s.
Proof.
  induction s as [|c s IH]; [done|].
  intros [Hc Hs]%not_elem_of_cons. cbn [c_str].
  rewrite decide_False by done. by rewrite IH.
Qed.

(** A C string holds no NUL byte; it is the whole string, or what comes in
    front of the first NUL byte. *)
Lemma c_str_cut (s : str) :
  (NUL ∉ c_str s) ∧ (s = c_str s ∨ ∃ rest, s = c_str s ++ NUL :: rest).
Proof.
  induction s as [|c s [IH1 IH2]]; cbn [c_str].
  - split; [apply not_elem_of_nil|by left].
  - case_decide as Hc.
    + subst c. split; [apply not_elem_of_nil|right; by exists s].
    + split; [by apply not_elem_of_cons|].
      destruct IH2 as [IH2|[rest IH2]].
      * left. by rewrite <- IH2.
      * right. exists rest. cbn. by rewrite <- IH2.
Qed.

Lemma rand_val_range env n : 0 ≤ rand_val env n ≤ RAND_MAX.
Proof.
  unfold rand_val, RAND_MAX.
  pose proof (Z.mod_pos_bound (rand_src env n) (2147483647 + 1)). lia.
Qed.

(** ** [std::getline] *)

Lemma extract_line l rest :
  newline_free l → extract (l ++ newline :: rest) = (l, rest, false).
Proof.
  unfold newline_free. induction l as [|c l IH]; intros Hl.
  - cbn [app extract]. by case_decide.
  - apply not_elem_of_cons in Hl as [Hc Hl].
    cbn [app extract]. case_decide; [congruence|]. by rewrite IH.
Qed.

Lemma extract_eof l : newline_free l → extract l = (l, [], true).
Proof.
  unfold newline_free. induction l as [|c l IH]; intros Hl; [done|].
  apply not_elem_of_cons in Hl as [Hc Hl].
  cbn [extract]. case_decide; [congruence|]. by rewrite IH.
Qed.

Lemma extract_newline_free b : newline_free (extract b).1.1.
Proof.
  unfold newline_free. induction b as [|c b IH]; cbn [extract].
  - apply not_elem_of_nil.
  - case_decide; [apply not_elem_of_nil|].
    destruct (extract b) as [[l r] e]; simpl in *.
    apply not_elem_of_cons. split; [congruence|done].
Qed.

Lemma getline_line l rest line :
  newline_free l →
  getline (mk_ifstream (l ++ newline :: rest) false false) line
  = (mk_ifstream rest false false, l, true).
Proof.
  intros Hl. unfold getline; simpl.
  rewrite extract_line by done. by destruct l.
Qed.

Lemma getline_last l line :
  newline_free l → l ≠ [] →
  getline (mk_ifstream l false false) line = (mk_ifstream [] true false, l, true).
Proof.
  intros Hl Hne. unfold getline; simpl.
  rewrite extract_eof by done. by destruct l.
Qed.

Lemma getline_not_good f line :
  eofbit f || failbit f = true →
  getline f line = (mk_ifstream (buf f) (eofbit f) true, line, false).
Proof. intros H. unfold getline. by rewrite H. Qed.

(** A line that [getline] delivers holds no line break; a failed call
    either leaves the line as it was or clears it. *)
Lemma getline_newline_free f line :
  newline_free line → newline_free (getline f line).1.2.
Proof.
  intros Hline. unfold getline.
  destruct (eofbit f || failbit f); [done|].
  destruct (buf f) as [|c b] eqn:Hb; [apply not_elem_of_nil|].
  pose proof (extract_newline_free (c :: b)) as H.
  destruct (extract (c :: b)) as [[l r] e]. done.
Qed.

Lemma unlines_cons l ls tail :
  unlines (l :: ls) ++ tail = l ++ newline :: (unlines ls ++ tail).
Proof. unfold unlines; simpl. by rewrite <- !app_assoc. Qed.

Lemma unlines_app ls1 ls2 : unlines (ls1 ++ ls2) = unlines ls1 ++ unlines ls2.
Proof. unfold unlines. by rewrite map_app, concat_app. Qed.

(** ** [readLineFromFile] and [countFileLines] *)

Lemma readLine_loop_spec init : ∀ tail fuel line cur lineNum k,
  Forall newline_free init → newline_free tail →
  (length (unlines init ++ tail) < fuel)%nat →
  0 ≤ cur → lineNum = cur + Z.of_nat k → lineNum ≤ INT_MAX →
  (k < length (text_lines init tail))%nat →
  text_lines init tail !! k
  = Some (readLine_loop fuel (mk_ifstream (unlines init ++ tail) false false)
            line cur lineNum).
Proof.
  induction init as [|l init IH];
    intros tail fuel line cur lineNum k Hinit Htail Hfuel Hcur Hk Hmax Hlt.
  - unfold text_lines in *. simpl in *. case_decide as Ht; simpl in Hlt; [lia|].
    destruct fuel as [|fuel]; [lia|]. simpl.
    rewrite getline_last by done.
    assert (k = 0%nat) as -> by lia.
    replace (cur <? lineNum) with false by (symmetry; apply Z.ltb_ge; lia).
    done.
  - apply Forall_cons in Hinit as [Hl Hinit].
    rewrite unlines_cons in *.
    destruct fuel as [|fuel]; [simpl in Hfuel; lia|]. simpl.
    rewrite getline_line by done.
    destruct k as [|k].
    + replace (cur <? lineNum) with false by (symmetry; apply Z.ltb_ge; lia).
      done.
    + replace (cur <? lineNum) with true by (symmetry; apply Z.ltb_lt; lia).
      simpl. rewrite int_succ_small by (unfold INT_MAX in *; lia).
      apply IH; try done.
      * rewrite length_app in Hfuel. simpl in Hfuel. lia.
      * lia.
      * lia.
      * unfold text_lines in *. simpl in Hlt. lia.
Qed.

Lemma countLines_loop_spec init : ∀ tail fuel line cnt,
  Forall newline_free init → newline_free tail →
  (length (unlines init ++ tail) < fuel)%nat →
  0 ≤ cnt → cnt + Z.of_nat (length (text_lines init tail)) ≤ INT_MAX →
  countLines_loop fuel (mk_ifstream (unlines init ++ tail) false false) line cnt
  = cnt + Z.of_nat (length (text_lines init tail)).
Proof.
  induction init as [|l init IH];
    intros tail fuel line cnt Hinit Htail Hfuel Hcnt Hmax.
  - unfold text_lines in *. simpl in *.
    destruct fuel as [|fuel]; [lia|]. simpl.
    case_decide as Ht; simpl in *.
    + subst tail. simpl. lia.
    + rewrite getline_last by done.
      rewrite int_succ_small by (unfold INT_MAX in *; lia).
      destruct fuel as [|fuel]; simpl; lia.
  - apply Forall_cons in Hinit as [Hl Hinit].
    rewrite unlines_cons in *.
    destruct fuel as [|fuel]; [simpl in Hfuel; lia|]. simpl.
    rewrite getline_line by done.
    rewrite int_succ_small
      by (unfold text_lines, INT_MAX in *; simpl in Hmax; lia).
    rewrite IH; try done.
    + unfold text_lines. simpl. lia.
    + rewrite length_app in Hfuel. simpl in Hfuel. lia.
    + lia.
    + unfold text_lines in *. simpl in Hmax. lia.
Qed.

Lemma readLineFromFile_spec (m : gmap string str) path init tail (k : nat) :
  Forall newline_free init → newline_free tail →
  m !! path = Some (unlines init ++ tail) →
  Z.of_nat k ≤ INT_MAX →
  (k < length (text_lines init tail))%nat →
  text_lines init tail !! k = Some (readLineFromFile m path (Z.of_nat k)).
Proof.
  intros Hinit Htail Hm Hmax Hk.
  unfold readLineFromFile, open_in, file_fuel. rewrite Hm. cbn [buf].
  apply readLine_loop_spec; try done; lia.
Qed.

Lemma countFileLines_spec (m : gmap string str) path init tail :
  Forall newline_free init → newline_free tail →
  m !! path = Some (unlines init ++ tail) →
  Z.of_nat (length (text_lines init tail)) ≤ INT_MAX →
  countFileLines m path = Z.of_nat (length (text_lines init tail)).
Proof.
  intros Hinit Htail Hm Hmax.
  unfold countFileLines, open_in, file_fuel. rewrite Hm. cbn [buf].
  rewrite countLines_loop_spec; try done; lia.
Qed.

(** ** Running computations *)

Lemma bind_val {A B} (c : prog A) (k : A → prog B) st a st' :
  c st = (Val a, st') → (c ≫= k) st = k a st'.
Proof. unfold mbind, prog_bind. by intros ->. Qed.

Lemma bind_exit {A B} (c : prog A) (k : A → prog B) st code st' :
  c st = (Exit code, st') → (c ≫= k) st = (Exit code, st').
Proof. unfold mbind, prog_bind. by intros ->. Qed.

Lemma bind_crash {A B} (c : prog A) (k : A → prog B) st st' :
  c st = (Crash, st') → (c ≫= k) st = (Crash, st').
Proof. unfold mbind, prog_bind. by intros ->. Qed.

Lemma bind_val_inv {A B} (c : prog A) (k : A → prog B) st b st2 :
  (c ≫= k) st = (Val b, st2) →
  ∃ a st1, c st = (Val a, st1) ∧ k a st1 = (Val b, st2).
Proof.
  unfold mbind, prog_bind. destruct (c st) as [[a| |] st1]; try done.
  intros H. by exists a, st1.
Qed.

(** ** [fuzzCommand] *)

Section Fuzz.

Context (env : Env).

Lemma specialChars_lookup (r : Z) :
  0 ≤ r →
  ∃ ch, specialChars !! Z.to_nat (r mod Z.of_nat (length specialChars)) = Some ch
        ∧ ch ∈ specialChars.
Proof.
  intros Hr.
  destruct (lookup_lt_is_Some_2 specialChars
              (Z.to_nat (r mod Z.of_nat (length specialChars)))) as [ch Hch].
  - pose proof (Z.mod_pos_bound r (Z.of_nat (length specialChars))) as Hb.
    change (length specialChars) with 18%nat in *. lia.
  - exists ch. split; [done|]. by eapply list_elem_of_lookup_2.
Qed.

Lemma fuzzCommand_disabled command st :
  fuzzCommand env command false st = (Val command, st).
Proof. done. Qed.

(** With a non-empty command the character [specialChars[r2 % 18]] goes in
    front of the character at index [r1 % length], where [r1] and [r2] are
    the next two values of [rand]. *)
Lemma fuzzCommand_nonempty command st :
  command ≠ [] →
  let i := Z.to_nat (rand_val env (rand_pos st) mod Z.of_nat (length command)) in
  let j := Z.to_nat (rand_val env (S (rand_pos st))
                     mod Z.of_nat (length specialChars)) in
  ∃ ch, specialChars !! j = Some ch ∧ ch ∈ specialChars ∧
        (i < length command)%nat ∧
        fuzzCommand env command true st
        = (Val (take i command ++ ch :: drop i command), tick_rand 2 st).
Proof.
  intros Hne i j.
  assert (0 < length command)%nat as Hlen by (destruct command; simpl; [done|lia]).
  pose proof (rand_val_range env (rand_pos st)) as Hr1.
  pose proof (rand_val_range env (S (rand_pos st))) as Hr2.
  destruct (specialChars_lookup (rand_val env (S (rand_pos st)))) as (ch & Hch & Hin);
    [lia|].
  pose proof (Z.mod_pos_bound (rand_val env (rand_pos st))
                (Z.of_nat (length command))) as Hi.
  pose proof (Z.mod_pos_bound (rand_val env (S (rand_pos st)))
                (Z.of_nat (length specialChars))) as Hj.
  change (length specialChars) with 18%nat in Hj.
  assert (i < length command)%nat as Hilt by (subst i; lia).
  exists ch. repeat split; try done.
  unfold fuzzCommand. cbn [negb].
  erewrite bind_val by reflexivity.
  rewrite decide_False by lia.
  erewrite bind_val by reflexivity.
  assert (rand_val env (rand_pos st) mod Z.of_nat (length command) ≤ RAND_MAX)
    as Hle.
  { transitivity (rand_val env (rand_pos st)); [|lia].
    apply Z.mod_le; lia. }
  unfold RAND_MAX in *.
  change (rand_pos (tick_rand 1 st)) with (S (rand_pos st)).
  rewrite !wrap_int_small by (change (length specialChars) with 18%nat; lia).
  rewrite Hch. unfold string_insert.
  rewrite decide_True by (unfold i in Hilt; lia).
  done.
Qed.

(** With the empty command the first remainder divides by zero. *)
Lemma fuzzCommand_empty st :
  fuzzCommand env [] true st = (Crash, tick_rand 1 st).
Proof. done. Qed.

End Fuzz.

(** ** Building a batch *)

Lemma content_lookup (m : gmap string str) path s :
  m !! path = Some s → content m path = s.
Proof. unfold content. by intros ->. Qed.

Lemma content_insert_eq (m : gmap string str) path s :
  content (<[path := s]> m) path = s.
Proof. unfold content. by rewrite lookup_insert_eq. Qed.

Lemma content_insert_ne (m : gmap string str) path path' s :
  path ≠ path' → content (<[path := s]> m) path' = content m path'.
Proof. intros H. unfold content. by rewrite lookup_insert_ne. Qed.

Lemma newline_not_special : newline ∉ specialChars.
Proof.
  intros H. apply list_elem_of_In in H. simpl in H.
  repeat (destruct H as [H|H]; [discriminate H|]). done.
Qed.

Lemma to_uint_newline_free d :
  newline_free (lit (NilEmpty.string_of_uint d)).
Proof.
  unfold newline_free. induction d; simpl;
    try apply not_elem_of_nil;
    (apply not_elem_of_cons; split; [discriminate|done]).
Qed.

Lemma to_string_newline_free z : newline_free (to_string z).
Proof.
  unfold to_string, NilZero.string_of_int, NilZero.string_of_uint.
  destruct (Z.to_int z) as [d|d]; destruct d; simpl;
    repeat (apply not_elem_of_cons; split; [discriminate|]);
    try apply not_elem_of_nil; apply to_uint_newline_free.
Qed.

Lemma readLine_loop_newline_free fuel : ∀ f line cur lineNum,
  newline_free line → newline_free (readLine_loop fuel f line cur lineNum).
Proof.
  induction fuel as [|fuel IH]; intros f line cur lineNum Hline; simpl; [done|].
  pose proof (getline_newline_free f line Hline) as H.
  destruct (getline f line) as [[f' line'] ok]; simpl in H.
  destruct (ok && (cur <? lineNum)); auto.
Qed.

Lemma readLineFromFile_newline_free m path lineNum :
  newline_free (readLineFromFile m path lineNum).
Proof. apply readLine_loop_newline_free, not_elem_of_nil. Qed.

Lemma tick_rand_0 st : tick_rand 0 st = st.
Proof. by destruct st. Qed.

Section BatchProperties.

Context (env : Env) (cfg : Config).
Context (tempFileName outputFileName : string) (fileLength : Z).

Local Abbreviation gen := (gen_commands env cfg tempFileName fileLength).
Local Abbreviation build := (build_batch env cfg tempFileName fileLength).
Local Abbreviation log := (log_batch env tempFileName outputFileName).
Local Abbreviation body :=
  (loop_body env cfg tempFileName outputFileName fileLength).
Local Abbreviation loop :=
  (main_loop env cfg tempFileName outputFileName fileLength).
Local Abbreviation ping := (pingCmd cfg).

Lemma randomCommand_inv file st cmd st1 :
  randomCommand env file fileLength st = (Val cmd, st1) →
  st1 = tick_rand 1 st ∧ newline_free cmd ∧ fileLength ≠ 0.
Proof.
  unfold randomCommand. erewrite bind_val by reflexivity.
  case_decide; [done|].
  unfold mbind, prog_bind, get_fs, mret, prog_ret.
  intros [= <- <-]. split_and!; [done| |done].
  apply readLineFromFile_newline_free.
Qed.

Lemma fuzzCommand_inv cmd b st f st' :
  fuzzCommand env cmd b st = (Val f, st') →
  (∃ k, st' = tick_rand k st) ∧ (newline_free cmd → newline_free f) ∧
  (b = false → f = cmd).
Proof.
  destruct b.
  - destruct (decide (cmd = [])) as [->|Hne]; [done|].
    destruct (fuzzCommand_nonempty env cmd st Hne) as (ch & _ & Hch & _ & ->).
    intros [= <- <-]. split_and!; [by eexists| |done].
    unfold newline_free. intros Hcmd.
    rewrite <- (take_drop
      (Z.to_nat (rand_val env (rand_pos st) mod Z.of_nat (length cmd))) cmd)
      in Hcmd.
    apply not_elem_of_app in Hcmd as [H1 H2].
    apply not_elem_of_app. split; [done|].
    apply not_elem_of_cons. split; [|done].
    intros Heq. apply newline_not_special. by rewrite Heq.
  - intros [= <- <-]. split_and!; [|done..].
    exists 0%nat. by rewrite tick_rand_0.
Qed.

Lemma gen_commands_inv n : ∀ acc st cmds st' old,
  gen n acc st = (Val cmds, st') →
  fs st !! tempFileName = Some old →
  ∃ new, cmds = acc ++ new ∧ length new = n ∧ Forall newline_free new ∧
         (rand_pos st ≤ rand_pos st')%nat ∧
         st' = staged (<[tempFileName := old ++ unlines new]> (fs st))
                 (rand_pos st') st.
Proof.
  induction n as [|n IH]; intros acc st cmds st' old Hrun Hold.
  - injection Hrun as <- <-. exists []. rewrite !app_nil_r.
    split_and!; try done.
    rewrite insert_id by done. by destruct st.
  - cbn [gen_commands] in Hrun.
    apply bind_val_inv in Hrun as (cmd & st1 & Hcmd & Hrun).
    apply bind_val_inv in Hrun as (f & st2 & Hf & Hrun).
    apply bind_val_inv in Hrun as ([] & st3 & Hw & Hrun).
    apply randomCommand_inv in Hcmd as (-> & Hnf & _).
    apply fuzzCommand_inv in Hf as ([k ->] & Hnf' & _).
    injection Hw as <-.
    eapply IH in Hrun as (new & -> & Hlen & Hall & Hpos & Hst).
    2:{ cbn. unfold append_file. rewrite lookup_insert_eq.
        by rewrite (content_lookup _ _ _ Hold). }
    exists (f :: new). split_and!.
    + by rewrite <- app_assoc.
    + simpl. by rewrite Hlen.
    + constructor; auto.
    + cbn in Hpos. lia.
    + rewrite Hst. unfold staged. cbn. f_equal.
      unfold append_file. rewrite insert_insert_eq.
      f_equal. rewrite <- !app_assoc. f_equal.
Qed.

Lemma pingCmd_newline_free : newline_free ping.
Proof.
  unfold pingCmd, newline_free. apply not_elem_of_app. split.
  - simpl. repeat (apply not_elem_of_cons; split; [discriminate|]).
    apply not_elem_of_nil.
  - apply to_string_newline_free.
Qed.

Lemma pipelineSize_range r : 0 ≤ r → 1 ≤ Z.rem r 10 + 1 ≤ 10.
Proof. intros Hr. pose proof (Z.rem_bound_pos r 10). lia. Qed.

(** What a batch that was built looks like, and what building it did. *)
Lemma build_batch_inv st cmds st' :
  build st = (Val cmds, st') →
  ofstream_ok env (opens st) = true ∧
  ∃ new,
    cmds = new ++ [ping] ∧
    Z.of_nat (length new) = Z.rem (rand_val env (rand_pos st)) 10 + 1 ∧
    Forall newline_free cmds ∧
    (rand_pos st < rand_pos st')%nat ∧
    st' = tick_opens (staged (<[tempFileName := unlines cmds]> (fs st))
                        (rand_pos st') st).
Proof.
  unfold build_batch. intros Hrun.
  apply bind_val_inv in Hrun as (ok & st1 & Hopen & Hrun).
  injection Hopen as <- <-.
  destruct (ofstream_ok env (opens st)) eqn:Hok; [|done].
  split; [done|]. cbn [negb] in Hrun.
  apply bind_val_inv in Hrun as (r & st2 & Hr & Hrun).
  injection Hr as <- <-.
  apply bind_val_inv in Hrun as (new & st3 & Hgen & Hrun).
  apply bind_val_inv in Hrun as ([] & st4 & Hw & Hrun).
  injection Hw as <-. injection Hrun as <- <-.
  eapply gen_commands_inv in Hgen as (new' & -> & Hlen & Hall & Hpos & Hst).
  2:{ cbn. apply lookup_insert_eq. }
  cbn [app] in *. exists new'. split_and!.
  - done.
  - rewrite Hlen. cbn [rand_pos tick_opens set_fs].
    pose proof (pipelineSize_range _ (proj1 (rand_val_range env (rand_pos st)))).
    lia.
  - apply Forall_app. split; [done|].
    constructor; [apply pingCmd_newline_free|constructor].
  - cbn in Hpos. cbn. lia.
  - rewrite Hst. unfold staged, tick_opens, tick_rand, set_fs, append_file.
    cbn [fs rand_pos opens pipeline formats reads replies context]. f_equal.
    rewrite content_insert_eq, !insert_insert_eq.
    f_equal. rewrite unlines_app. unfold unlines at 3. cbn [map concat].
    by rewrite app_nil_r.
Qed.

(** ** Sending the batch and draining the replies *)

Lemma send_batch_spec cmds : ∀ st,
  send_batch cmds st = (Val (), push_commands cmds st).
Proof.
  induction cmds as [|cmd cmds IH]; intros st.
  - cbn. unfold push_commands. rewrite !app_nil_r. by destruct st.
  - cbn [send_batch]. erewrite bind_val by reflexivity.
    rewrite IH. unfold push_commands, push_command. cbn.
    by rewrite <- !app_assoc.
Qed.

Lemma add_reads_0 st : add_reads 0 0 st = st.
Proof. by destruct st. Qed.

(** Either every reply arrives, or the loop stops at the first failure. *)
Lemma get_replies_cases n : ∀ st,
  ((∀ i, (i < n)%nat → reply_ok env (reads st + i) = true) ∧
   get_replies env n st = (Val true, add_reads n n st))
  ∨ (∃ j, (j < n)%nat ∧
          (∀ i, (i < j)%nat → reply_ok env (reads st + i) = true) ∧
          reply_ok env (reads st + j) = false ∧
          get_replies env n st = (Val false, add_reads (S j) j st)).
Proof.
  induction n as [|n IH]; intros st.
  - left. split; [lia|]. cbn. by rewrite add_reads_0.
  - cbn [get_replies]. erewrite bind_val by reflexivity.
    destruct (reply_ok env (reads st)) eqn:Hok; cbn [negb].
    + destruct (IH (tick_reads true st)) as [[Hall Hrun]|(j & Hj & Hall & Hbad & Hrun)].
      * left. split.
        -- intros [|i] Hi; [by rewrite Nat.add_0_r|].
           specialize (Hall i ltac:(lia)). cbn in Hall.
           by replace (reads st + S i)%nat with (S (reads st + i)) by lia.
        -- rewrite Hrun. unfold add_reads, tick_reads. cbn.
           do 2 f_equal; lia.
      * right. exists (S j). split_and!.
        -- lia.
        -- intros [|i] Hi; [by rewrite Nat.add_0_r|].
           specialize (Hall i ltac:(lia)). cbn in Hall.
           by replace (reads st + S i)%nat with (S (reads st + i)) by lia.
        -- cbn in Hbad.
           by replace (reads st + S j)%nat with (S (reads st + j)) by lia.
        -- rewrite Hrun. unfold add_reads, tick_reads. cbn.
           do 2 f_equal; lia.
    + right. exists 0%nat. split_and!; [lia|lia|by rewrite Nat.add_0_r|].
      done.
Qed.

Lemma get_replies_ok n st :
  (∀ i, (i < n)%nat → reply_ok env (reads st + i) = true) →
  get_replies env n st = (Val true, add_reads n n st).
Proof.
  intros Hall.
  destruct (get_replies_cases n st) as [[_ Hrun]|(j & Hj & _ & Hbad & _)]; [done|].
  rewrite Hall in Hbad by done. done.
Qed.

Lemma get_replies_fail n st j :
  (j < n)%nat →
  (∀ i, (i < j)%nat → reply_ok env (reads st + i) = true) →
  reply_ok env (reads st + j) = false →
  get_replies env n st = (Val false, add_reads (S j) j st).
Proof.
  intros Hj Hall Hbad.
  destruct (get_replies_cases n st) as [[Hall' _]|(j' & Hj' & Hall' & Hbad' & Hrun)].
  - rewrite Hall' in Hbad by done. done.
  - destruct (Nat.lt_trichotomy j j') as [Hlt|[->|Hgt]]; [|done|].
    + rewrite Hall' in Hbad by done. done.
    + rewrite Hall in Hbad' by done. done.
Qed.

(** ** Appending the batch to the log *)

Lemma copy_lines_spec cmds : ∀ fuel line st old,
  Forall newline_free cmds →
  (length (unlines cmds) < fuel)%nat →
  fs st !! outputFileName = Some old →
  copy_lines outputFileName fuel (mk_ifstream (unlines cmds) false false) line st
  = (Val (), set_fs (insert outputFileName (old ++ unlines cmds)) st).
Proof.
  induction cmds as [|cmd cmds IH]; intros fuel line st old Hall Hfuel Hold.
  - destruct fuel as [|fuel]; [cbn in Hfuel; lia|].
    cbn. unfold set_fs. rewrite app_nil_r, insert_id by done. by destruct st.
  - apply Forall_cons in Hall as [Hcmd Hall].
    destruct fuel as [|fuel]; [cbn in Hfuel; lia|].
    cbn [copy_lines].
    rewrite <- (app_nil_r (unlines (cmd :: cmds))), unlines_cons, app_nil_r.
    rewrite getline_line by done.
    erewrite bind_val by reflexivity.
    rewrite (IH fuel cmd _ (old ++ cmd ++ [newline])); try done.
    + unfold set_fs, append_file. cbn [fs rand_pos opens pipeline formats reads replies context].
      rewrite insert_insert_eq. do 3 f_equal.
      by rewrite <- !app_assoc.
    + rewrite <- (app_nil_r (unlines (cmd :: cmds))), unlines_cons, app_nil_r
        in Hfuel.
      rewrite length_app in Hfuel. cbn in Hfuel. lia.
    + cbn. unfold append_file. rewrite lookup_insert_eq.
      by rewrite (content_lookup _ _ _ Hold).
Qed.

Lemma log_batch_spec batchNum st cmds :
  tempFileName ≠ outputFileName →
  ofstream_ok env (opens st) = true →
  fs st !! tempFileName = Some (unlines cmds) →
  Forall newline_free cmds →
  log batchNum st
  = (Val (), tick_opens
               (set_fs (append_file outputFileName
                          (logged (ifstream_ok env (S (opens st))) batchNum cmds))
                  st)).
Proof.
  intros Hne Hok Htemp Hall. unfold log_batch.
  erewrite bind_val by reflexivity. rewrite Hok. cbn [negb].
  erewrite bind_val by reflexivity.
  erewrite bind_val by reflexivity.
  unfold open_in, file_fuel, set_fs, append_file, tick_opens, logged.
  cbn [fs rand_pos opens pipeline formats reads replies context].
  destruct (ifstream_ok env (S (opens st))).
  - rewrite !lookup_insert_ne by done. rewrite Htemp. cbn [buf].
    erewrite copy_lines_spec; [|done|lia|cbn; apply lookup_insert_eq].
    unfold set_fs.
    cbn [fs rand_pos opens pipeline formats reads replies context].
    rewrite !insert_insert_eq, !content_insert_eq.
    unfold log_header. do 3 f_equal.
    by rewrite <- !app_assoc.
  - cbn. rewrite insert_insert_eq, content_insert_eq.
    unfold log_header. by rewrite app_nil_r.
Qed.

Lemma log_batch_fail batchNum st :
  ofstream_ok env (opens st) = false →
  log batchNum st = (Exit 1, set_context Freed (tick_opens st)).
Proof.
  intros Hok. unfold log_batch.
  erewrite bind_val by reflexivity. rewrite Hok. done.
Qed.

(** ** One iteration of the main loop *)

Lemma loop_body_build_fail batchNum st r st1 :
  build st = (r, st1) → (∀ cmds, r ≠ Val cmds) →
  body batchNum st
  = (match r with Exit code => Exit code | _ => Crash end, st1).
Proof.
  intros Hb Hr. unfold loop_body, mbind, prog_bind at 1. rewrite Hb.
  destruct r; [by destruct (Hr a)|done..].
Qed.

Lemma loop_body_reply_fail batchNum st cmds st1 j :
  build st = (Val cmds, st1) →
  (j < length cmds)%nat →
  (∀ i, (i < j)%nat → reply_ok env (reads st1 + i) = true) →
  reply_ok env (reads st1 + j) = false →
  body batchNum st
  = (Exit 1, set_context Freed (add_reads (S j) j (push_commands cmds st1))).
Proof.
  intros Hb Hj Hall Hbad. unfold loop_body.
  erewrite bind_val by exact Hb.
  erewrite bind_val by apply send_batch_spec.
  erewrite bind_val by (by apply (get_replies_fail _ _ j)).
  done.
Qed.

Lemma loop_body_success batchNum st cmds st1 :
  tempFileName ≠ outputFileName →
  build st = (Val cmds, st1) →
  (∀ i, (i < length cmds)%nat → reply_ok env (reads st1 + i) = true) →
  ofstream_ok env (opens st1) = true →
  body batchNum st
  = (Val (), tick_opens
               (set_fs (append_file outputFileName
                          (logged (ifstream_ok env (S (opens st1))) batchNum
                             cmds))
                  (answered cmds st1))).
Proof.
  intros Hne Hb Hall Hok. unfold loop_body.
  erewrite bind_val by exact Hb.
  erewrite bind_val by apply send_batch_spec.
  erewrite bind_val by (by apply get_replies_ok).
  cbn [negb].
  apply build_batch_inv in Hb as (_ & new & Hcmds & _ & Hnf & _ & Hst).
  change (opens st1) with (opens (answered cmds st1)).
  apply log_batch_spec; try done.
  change (fs (answered cmds st1)) with (fs st1).
  rewrite Hst. cbn. apply lookup_insert_eq.
Qed.

(** An iteration that completes has built a batch, received every reply
    and opened the log; what it logs depends on whether the scratch file
    could be read back. *)
Lemma loop_body_inv batchNum st st' :
  tempFileName ≠ outputFileName →
  body batchNum st = (Val (), st') →
  ∃ cmds st1,
    build st = (Val cmds, st1) ∧
    (∀ i, (i < length cmds)%nat → reply_ok env (reads st1 + i) = true) ∧
    ofstream_ok env (opens st1) = true ∧
    st' = tick_opens
            (set_fs (append_file outputFileName
                       (logged (ifstream_ok env (S (opens st1))) batchNum cmds))
               (answered cmds st1)).
Proof.
  intros Hne Hrun.
  destruct (build st) as [[cmds| |] st1] eqn:Hb.
  2,3: by erewrite loop_body_build_fail in Hrun by done.
  exists cmds, st1. split; [done|].
  destruct (get_replies_cases (length cmds) (push_commands cmds st1))
    as [[Hall _]|(j & Hj & Hall & Hbad & _)].
  - cbn in Hall.
    destruct (ofstream_ok env (opens st1)) eqn:Hok.
    + rewrite (loop_body_success _ _ _ _ Hne Hb Hall Hok) in Hrun.
      by injection Hrun as <-.
    + exfalso. revert Hrun. unfold loop_body.
      erewrite bind_val by exact Hb.
      erewrite bind_val by apply send_batch_spec.
      erewrite bind_val by (by apply get_replies_ok).
      cbn [negb]. by rewrite log_batch_fail.
  - cbn in Hall, Hbad.
    by rewrite (loop_body_reply_fail _ _ _ _ j Hb Hj Hall Hbad) in Hrun.
Qed.

(** ** The main loop *)

Lemma main_loop_app a : ∀ b batchNum st,
  loop (a + b) batchNum st
  = (loop a batchNum;; loop b (batchNum + Z.of_nat a)) st.
Proof.
  induction a as [|a IH]; intros b batchNum st.
  - cbn. by rewrite Z.add_0_r.
  - cbn [Nat.add main_loop]. unfold mbind, prog_bind.
    destruct (body batchNum st) as [[[]| |] st1]; [|done..].
    case_decide; [done|].
    rewrite IH. unfold mbind, prog_bind.
    by replace (batchNum + 1 + Z.of_nat a) with (batchNum + Z.of_nat (S a))
      by lia.
Qed.

Lemma main_loop_step_inv k batchNum st st' :
  loop (S k) batchNum st = (Val (), st') →
  ∃ st1, body batchNum st = (Val (), st1) ∧
         loop k (batchNum + 1) st1 = (Val (), st').
Proof.
  cbn [main_loop]. intros H.
  apply bind_val_inv in H as ([] & st1 & H1 & H2).
  case_decide; [done|]. by exists st1.
Qed.

(** After [k] completed iterations in which the scratch file could be read
    back, the log has grown by the entries of [k] batches with consecutive
    numbers, [redisAppendCommand] was called for the same commands in the
    same order, and the library received their C strings. *)
Lemma main_loop_success k : ∀ batchNum st st',
  tempFileName ≠ outputFileName →
  (∀ n, ifstream_ok env n = true) →
  loop k batchNum st = (Val (), st') →
  ∃ batches,
    length batches = k ∧
    Forall (λ cmds, Forall newline_free cmds ∧ last cmds = Some ping) batches ∧
    content (fs st') outputFileName
    = content (fs st) outputFileName ++ log_entries batchNum batches ∧
    pipeline st' = pipeline st ++ concat batches ∧
    formats st' = formats st ++ map c_str (concat batches).
Proof.
  induction k as [|k IH]; intros batchNum st st' Hne Hread Hrun.
  - injection Hrun as <-. exists []. by rewrite !app_nil_r.
  - apply main_loop_step_inv in Hrun as (st1 & Hbody & Hrun).
    apply loop_body_inv in Hbody as (cmds & st0 & Hb & _ & _ & Hst1); [|done].
    rewrite Hread in Hst1.
    apply build_batch_inv in Hb as (_ & new & Hcmds & _ & Hnf & _ & Hst0).
    apply IH in Hrun as (batches & Hlen & Hall & Hlog & Hpipe & Hfmt);
      [|done..].
    exists (cmds :: batches). split_and!.
    + simpl. by rewrite Hlen.
    + constructor; [|done]. split; [done|].
      rewrite Hcmds. apply last_snoc.
    + rewrite Hlog, Hst1, Hst0. cbn [log_entries].
      unfold tick_opens, set_fs, answered, add_reads, push_commands, staged,
        append_file, logged, log_entry.
      cbn [fs rand_pos opens pipeline formats reads replies context].
      rewrite content_insert_eq, !content_insert_ne by done.
      by rewrite <- !app_assoc.
    + rewrite Hpipe, Hst1, Hst0. cbn. by rewrite <- !app_assoc.
    + rewrite Hfmt, Hst1, Hst0. cbn. by rewrite map_app, <- !app_assoc.
Qed.

End BatchProperties.

(** ** [main] *)

(** When the scratch file could be created, the command file has lines and
    the connection was opened, [main] runs the loop and then cleans up. *)
Lemma main_startup env cfg st temp :
  mkstemp_res env = Some temp →
  countFileLines (<[temp := []]> (fs st)) (commandsFile cfg) ≠ 0 →
  connect_res env = ConnectOk →
  main env cfg st
  = (main_loop env cfg temp (output_name env)
       (countFileLines (<[temp := []]> (fs st)) (commandsFile cfg))
       (Z.to_nat (numBatches cfg)) 1;;
     redisFree;;
     remove temp;;
     mret 0) (set_context Live (set_fs (insert temp []) st)).
Proof.
  intros Htemp Hlen Hconn. unfold main.
  erewrite bind_val by (unfold createTempFile; by rewrite Htemp).
  erewrite bind_val by reflexivity.
  erewrite bind_val by reflexivity.
  cbn [fs set_fs]. rewrite decide_False by done.
  erewrite bind_val by reflexivity.
  by rewrite Hconn.
Qed.

(** ** What holds on every path

    Whatever happens in the loop, the log only ever grows at its end, the
    scratch file is never removed, and a [return 1] comes after the
    connection has been released. *)

Section EveryPath.

Context (env : Env) (cfg : Config).
Context (tempFileName outputFileName : string) (fileLength : Z).
Hypothesis names_differ : tempFileName ≠ outputFileName.

Local Abbreviation run_rel := (run_rel tempFileName outputFileName).
Local Abbreviation orderly := (orderly tempFileName outputFileName).

Lemma run_rel_same_fs st st' : fs st' = fs st → run_rel st st'.
Proof. intros H. split; by rewrite H. Qed.

Lemma run_rel_trans st1 st2 st3 :
  run_rel st1 st2 → run_rel st2 st3 → run_rel st1 st3.
Proof.
  intros [H1 H2] [H3 H4]. split; [by etrans|auto].
Qed.

Lemma run_rel_append path s st :
  run_rel st (set_fs (append_file path s) st).
Proof.
  split; cbn; unfold append_file.
  - destruct (decide (path = outputFileName)) as [->|Hne].
    + rewrite content_insert_eq. by apply prefix_app_r.
    + by rewrite content_insert_ne.
  - intros H. destruct (decide (path = tempFileName)) as [->|Hne].
    + by rewrite lookup_insert_eq.
    + by rewrite lookup_insert_ne.
Qed.

Lemma orderly_bind {A B} (c : prog A) (k : A → prog B) :
  orderly c → (∀ a, orderly (k a)) → orderly (c ≫= k).
Proof.
  intros Hc Hk st. unfold mbind, prog_bind.
  pose proof (Hc st) as Hst.
  destruct (c st) as [[a| |] st1]; destruct Hst as [Hrel Hexit]; cbn in *;
    [|split; [exact Hrel|]..].
  2:{ intros code' [= <-]. by apply Hexit. }
  2:{ done. }
  destruct (Hk a st1) as [Hrel' Hexit'].
  split; [by eapply run_rel_trans|done].
Qed.

Lemma orderly_ret {A} (a : A) : orderly (mret a).
Proof. intros st. split; [by apply run_rel_same_fs|done]. Qed.

Lemma orderly_crash {A} : orderly (@crash A).
Proof. intros st. split; [by apply run_rel_same_fs|done]. Qed.

Lemma orderly_fail {A} : orderly (redisFree;; @exit_with A 1).
Proof.
  intros st. split; [by apply run_rel_same_fs|].
  cbn. by intros code [= <-].
Qed.

Lemma orderly_same_fs {A} (c : prog A) :
  (∀ st, ∃ a, (c st).1 = Val a) → (∀ st, fs (c st).2 = fs st) → orderly c.
Proof.
  intros Hval Hfs st. split; [by apply run_rel_same_fs|].
  destruct (Hval st) as [a ->]. done.
Qed.

Lemma orderly_rand : orderly (rand env).
Proof. apply orderly_same_fs; intros st; [by eexists|done]. Qed.

Lemma orderly_write_line path line : orderly (write_line path line).
Proof. intros st. split; [apply run_rel_append|done]. Qed.

Lemma orderly_write path s : orderly (write path s).
Proof. intros st. split; [apply run_rel_append|done]. Qed.

Lemma orderly_open_scratch : orderly (ofstream_open env tempFileName true).
Proof.
  intros st. split; [|done]. cbn.
  destruct (ofstream_ok env (opens st)); [|by apply run_rel_same_fs].
  split; cbn.
  - by rewrite content_insert_ne.
  - by rewrite lookup_insert_eq.
Qed.

Lemma orderly_open_log : orderly (ofstream_open env outputFileName false).
Proof.
  intros st. split; [|done]. cbn.
  destruct (ofstream_ok env (opens st)); [|by apply run_rel_same_fs].
  split; cbn.
  - by rewrite content_insert_eq.
  - by rewrite lookup_insert_ne.
Qed.

Lemma orderly_randomCommand file : orderly (randomCommand env file fileLength).
Proof.
  unfold randomCommand. apply orderly_bind; [apply orderly_rand|intros r].
  case_decide; [apply orderly_crash|].
  apply orderly_bind; [|intros m; apply orderly_ret].
  apply orderly_same_fs; intros st; [by eexists|done].
Qed.

Lemma orderly_fuzzCommand cmd b : orderly (fuzzCommand env cmd b).
Proof.
  unfold fuzzCommand. destruct b; cbn [negb]; [|apply orderly_ret].
  apply orderly_bind; [apply orderly_rand|intros r1].
  case_decide; [apply orderly_crash|].
  apply orderly_bind; [apply orderly_rand|intros r2].
  repeat case_match; first [apply orderly_ret|apply orderly_crash].
Qed.

Lemma orderly_gen_commands n : ∀ acc,
  orderly (gen_commands env cfg tempFileName fileLength n acc).
Proof.
  induction n as [|n IH]; intros acc; cbn [gen_commands]; [apply orderly_ret|].
  apply orderly_bind; [apply orderly_randomCommand|intros cmd].
  apply orderly_bind; [apply orderly_fuzzCommand|intros f].
  apply orderly_bind; [apply orderly_write_line|intros _]. apply IH.
Qed.

Lemma orderly_build_batch :
  orderly (build_batch env cfg tempFileName fileLength).
Proof.
  unfold build_batch.
  apply orderly_bind; [apply orderly_open_scratch|intros ok].
  destruct ok; cbn [negb]; [|apply orderly_fail].
  apply orderly_bind; [apply orderly_rand|intros r].
  apply orderly_bind; [apply orderly_gen_commands|intros cmds].
  apply orderly_bind; [apply orderly_write_line|intros _]. apply orderly_ret.
Qed.

Lemma orderly_send_batch cmds : orderly (send_batch cmds).
Proof.
  apply orderly_same_fs; intros st; rewrite send_batch_spec; [by eexists|done].
Qed.

Lemma orderly_get_replies n : orderly (get_replies env n).
Proof.
  apply orderly_same_fs; intros st;
    destruct (get_replies_cases env n st) as [[_ ->]|(j & _ & _ & _ & ->)];
    by eauto.
Qed.

Lemma orderly_copy_lines fuel : ∀ f line,
  orderly (copy_lines outputFileName fuel f line).
Proof.
  induction fuel as [|fuel IH]; intros f line; cbn [copy_lines];
    [apply orderly_ret|].
  destruct (getline f line) as [[f' line'] ok].
  destruct ok; [|apply orderly_ret].
  apply orderly_bind; [apply orderly_write_line|intros _]. apply IH.
Qed.

Lemma orderly_log_batch batchNum :
  orderly (log_batch env tempFileName outputFileName batchNum).
Proof.
  unfold log_batch.
  apply orderly_bind; [apply orderly_open_log|intros ok].
  destruct ok; cbn [negb]; [|apply orderly_fail].
  apply orderly_bind; [apply orderly_write|intros _].
  apply orderly_bind; [|intros f; apply orderly_copy_lines].
  apply orderly_same_fs; intros st; [by eexists|done].
Qed.

Lemma orderly_loop_body batchNum :
  orderly (loop_body env cfg tempFileName outputFileName fileLength batchNum).
Proof.
  unfold loop_body.
  apply orderly_bind; [apply orderly_build_batch|intros cmds].
  apply orderly_bind; [apply orderly_send_batch|intros _].
  apply orderly_bind; [apply orderly_get_replies|intros ok].
  destruct ok; cbn [negb]; [apply orderly_log_batch|apply orderly_fail].
Qed.

Lemma orderly_main_loop k : ∀ batchNum,
  orderly (main_loop env cfg tempFileName outputFileName fileLength k batchNum).
Proof.
  induction k as [|k IH]; intros batchNum; cbn [main_loop]; [apply orderly_ret|].
  apply orderly_bind; [apply orderly_loop_body|intros _].
  case_decide; [apply orderly_crash|apply IH].
Qed.

End EveryPath.

(** * The numbered properties *)

(** ** C1: where the special character goes *)

(** C1 (counterexample): the insertion index is meant to range over
    [0, length], so that the character can also be appended after the last
    character of the command.  For the command [GET k] no values of [rand]
    make [fuzzCommand] return [GET k] followed by one character. *)
Lemma fuzz_never_appends :
  ¬ ∃ env st ch st',
      fuzzCommand env (lit "GET k") true st = (Val (lit "GET k" ++ [ch]), st').
Proof.
  intros (env & st & ch & st' & Hrun).
  destruct (fuzzCommand_nonempty env (lit "GET k") st) as (c & _ & Hin & Hlt & Heq);
    [done|].
  revert Hlt Heq.
  generalize (Z.to_nat (rand_val env (rand_pos st)
                        mod Z.of_nat (length (lit "GET k")))).
  intros i Hlt Heq.
  rewrite Heq in Hrun. clear Heq. injection Hrun as Hrun _.
  assert (c ∉ lit "GET k") as Hc.
  { intros Hc. apply list_elem_of_In in Hin, Hc. cbn in Hin, Hc.
    repeat (destruct Hc as [Hc|Hc];
            [subst c;
             repeat (destruct Hin as [Hin|Hin]; [discriminate Hin|]);
             exact Hin|]).
    exact Hc. }
  cbn in Hlt.
  do 5 (destruct i as [|i];
        [cbn in Hrun; apply Hc; simplify_eq; cbn;
         repeat first [apply list_elem_of_here|apply list_elem_of_further]|]).
  lia.
Qed.

(** C1 (amended): for a non-empty command the special character
    [specialChars[r2 % 18]] is inserted in front of the character at index
    [r1 % length], where [r1] and [r2] are the next two values of [rand]; the
    index lies in [0, length - 1] and is at most [RAND_MAX]; every index below
    the length that is at most [RAND_MAX], with every special character, is
    produced by suitable values of [rand]. *)
Theorem fuzz_inserts_before_a_character env (s : str) st :
  s ≠ [] →
  (∃ (i : nat) ch,
     Z.of_nat i = rand_val env (rand_pos st) mod Z.of_nat (length s) ∧
     (i < length s)%nat ∧
     Z.of_nat i ≤ RAND_MAX ∧
     specialChars !! Z.to_nat (rand_val env (S (rand_pos st)) mod 18) = Some ch ∧
     ch ∈ specialChars ∧
     fuzzCommand env s true st = (Val (take i s ++ ch :: drop i s), tick_rand 2 st))
  ∧ (∀ (i j : nat) ch,
       (i < length s)%nat → Z.of_nat i ≤ RAND_MAX → specialChars !! j = Some ch →
       rand_src env (rand_pos st) = Z.of_nat i →
       rand_src env (S (rand_pos st)) = Z.of_nat j →
       fuzzCommand env s true st
       = (Val (take i s ++ ch :: drop i s), tick_rand 2 st)).
Proof.
  intros Hne.
  assert (0 < length s)%nat as Hlen by (destruct s; simpl; [done|lia]).
  split.
  - destruct (fuzzCommand_nonempty env s st Hne) as (ch & Hch & Hin & Hlt & Heq).
    pose proof (rand_val_range env (rand_pos st)) as Hr.
    assert (0 ≤ rand_val env (rand_pos st) mod Z.of_nat (length s)
            ≤ rand_val env (rand_pos st)) as Hmod.
    { split; [apply Z.mod_pos_bound; lia|apply Z.mod_le; lia]. }
    eexists _, ch. split_and!; [|done| |done..].
    + rewrite Z2Nat.id; [done|lia].
    + rewrite Z2Nat.id; lia.
  - intros i j ch Hi Hmax Hj Hr1 Hr2.
    destruct (fuzzCommand_nonempty env s st Hne) as (ch' & Hch & _ & _ & Heq).
    pose proof (lookup_lt_Some _ _ _ Hj) as Hj18.
    change (length specialChars) with 18%nat in *.
    unfold rand_val, RAND_MAX in *. rewrite Hr1, Hr2 in *.
    rewrite (Z.mod_small (Z.of_nat i)) in Heq by lia.
    rewrite (Z.mod_small (Z.of_nat j)) in Hch by lia.
    rewrite (Z.mod_small (Z.of_nat i)) in Heq by lia.
    rewrite (Z.mod_small (Z.of_nat j)) in Hch by lia.
    rewrite Nat2Z.id in *. by simplify_eq.
Qed.

Lemma fuzz_inserts_before_a_character_witness :
  fuzzCommand (sample_env 9 9) (lit "GET k") true (initial sample_fs)
  = (Val (lit "GE)T k"), tick_rand 2 (initial sample_fs)).
Proof.
  apply (proj2 (fuzz_inserts_before_a_character (sample_env 9 9) (lit "GET k")
                  (initial sample_fs) ltac:(discriminate)) 2%nat 9%nat);
    [cbn; lia|unfold RAND_MAX; lia|reflexivity..].
Defined.

(** ** C2 and C3: the empty command *)

(** C2 (what the code does at the failing input): with fuzzing enabled the
    empty command makes [rand() % command.length()] a remainder by zero;
    no string is returned. *)
Theorem fuzz_empty_command_crashes env st :
  fuzzCommand env [] true st = (Crash, tick_rand 1 st).
Proof. reflexivity. Qed.

(** C3 (what the code does at the failing input): the length of the string
    that fuzzing makes of the empty command.  The law "one character longer
    than the command" asks for 1; there is no string at all. *)
Theorem fuzz_empty_command_has_no_result env st :
  match (fuzzCommand env [] true st).1 with
  | Val out => Some (length out)
  | Exit _ | Crash => None
  end = None.
Proof. reflexivity. Qed.

(** For every other command the law of C3 holds. *)
Lemma fuzzCommand_insertion env (s : str) st :
  fuzzCommand env s false st = (Val s, st) ∧
  (s ≠ [] →
   ∃ pre post ch,
     s = pre ++ post ∧ ch ∈ specialChars ∧
     fuzzCommand env s true st = (Val (pre ++ ch :: post), tick_rand 2 st) ∧
     length (pre ++ ch :: post) = S (length s)).
Proof.
  split; [done|]. intros Hne.
  destruct (fuzzCommand_nonempty env s st Hne) as (ch & _ & Hin & _ & Heq).
  eexists _, _, ch. split_and!; [|done|exact Heq|].
  - by rewrite take_drop.
  - rewrite length_app. cbn [length].
    by rewrite Nat.add_succ_r, <- length_app, take_drop.
Qed.

(** An empty line in the command file brings the empty command to
    [fuzzCommand]: the run has no exit status. *)
Example empty_line_crashes_run :
  exit_code
    (main (sample_env 9 9) (sample_cfg 1 true)
       (initial {[ "/root/cmds.txt"%string := [newline] ]})).1 = None.
Proof. vm_compute. reflexivity. Qed.

(** ** C4: sampling a line of the command file *)

(** C4: let the command file hold the lines [corpus] (every line
    terminated, or the last one left unterminated), with
    [1 <= N = length corpus <= INT_MAX].  Then [countFileLines] answers [N],
    [readLineFromFile] answers line [i] for every index [i] in [0, N), and
    [randomCommand] answers the line at index [rand() % N]; reading the file
    again on each call leaves the state as it was but for the random value
    that was drawn. *)
Theorem sample_returns_indexed_line env path init tail st :
  Forall newline_free init → newline_free tail →
  fs st !! path = Some (unlines init ++ tail) →
  let corpus := text_lines init tail in
  let N := Z.of_nat (length corpus) in
  1 ≤ N ≤ INT_MAX →
  countFileLines (fs st) path = N ∧
  (∀ i : nat, (i < length corpus)%nat →
     corpus !! i = Some (readLineFromFile (fs st) path (Z.of_nat i))) ∧
  ∃ i : nat,
    Z.of_nat i = rand_val env (rand_pos st) mod N ∧
    (i < length corpus)%nat ∧
    ∃ line, corpus !! i = Some line ∧
            randomCommand env path N st = (Val line, tick_rand 1 st).
Proof.
  intros Hinit Htail Hfile corpus N HN.
  assert (N = Z.of_nat (length corpus)) as HNdef by done. clearbody N.
  assert (∀ i : nat, (i < length corpus)%nat →
            corpus !! i = Some (readLineFromFile (fs st) path (Z.of_nat i)))
    as Hread.
  { intros i Hi. apply readLineFromFile_spec; try done. lia. }
  split_and!; [|done|].
  - rewrite HNdef. apply countFileLines_spec; try done. fold corpus. lia.
  - pose proof (rand_val_range env (rand_pos st)) as Hr.
    pose proof (Z.mod_pos_bound (rand_val env (rand_pos st)) N ltac:(lia)) as Hm.
    exists (Z.to_nat (rand_val env (rand_pos st) mod N)).
    split_and!; [lia|lia|].
    eexists. split; [apply Hread; lia|].
    unfold randomCommand. erewrite bind_val by reflexivity.
    rewrite decide_False by lia.
    rewrite Z.rem_mod_nonneg by lia.
    rewrite Z2Nat.id by lia. done.
Qed.

Lemma sample_returns_indexed_line_witness :
  randomCommand (sample_env 9 9) "/root/cmds.txt" 2
    (tick_rand 1 (initial sample_fs))
  = (Val (lit "SET k v"), tick_rand 2 (initial sample_fs)).
Proof.
  destruct (sample_returns_indexed_line (sample_env 9 9) "/root/cmds.txt"
              sample_corpus [] (tick_rand 1 (initial sample_fs)))
    as (_ & _ & i & Hi & _ & line & Hline & Hrun).
  - unfold sample_corpus, newline_free. repeat constructor; compute_done.
  - apply not_elem_of_nil.
  - rewrite app_nil_r. apply lookup_singleton_eq.
  - split; vm_compute; discriminate.
  - change (rand_val (sample_env 9 9) (rand_pos (tick_rand 1 (initial sample_fs)))
            mod Z.of_nat (length (text_lines sample_corpus []))) with 1 in Hi.
    assert (i = 1%nat) as -> by lia.
    cbn in Hline. injection Hline as <-. exact Hrun.
Defined.

(** ** C5: the shape of a batch *)

Lemma randomCommand_total env file fileLength st :
  fileLength ≠ 0 →
  randomCommand env file fileLength st
  = (Val (readLineFromFile (fs st) file
            (Z.rem (rand_val env (rand_pos st)) fileLength)),
     tick_rand 1 st).
Proof.
  intros Hlen. unfold randomCommand. erewrite bind_val by reflexivity.
  by rewrite decide_False by done.
Qed.

Lemma gen_commands_total env cfg temp fileLength n : ∀ acc st,
  fuzzEnabled cfg = false → fileLength ≠ 0 →
  ∃ cmds st', gen_commands env cfg temp fileLength n acc st = (Val cmds, st').
Proof.
  induction n as [|n IH]; intros acc st Hfuzz Hlen; [by eexists _, _|].
  cbn [gen_commands].
  erewrite bind_val by (by apply randomCommand_total).
  rewrite Hfuzz. erewrite bind_val by reflexivity.
  erewrite bind_val by reflexivity. by apply IH.
Qed.

(** Without fuzzing, a batch is built whenever the scratch file opens. *)
Lemma build_batch_total env cfg temp fileLength st :
  fuzzEnabled cfg = false → fileLength ≠ 0 →
  ofstream_ok env (opens st) = true →
  ∃ cmds st', build_batch env cfg temp fileLength st = (Val cmds, st').
Proof.
  intros Hfuzz Hlen Hok. unfold build_batch.
  erewrite bind_val by reflexivity. rewrite Hok. cbn [negb].
  erewrite bind_val by reflexivity.
  edestruct (gen_commands_total env cfg temp fileLength) as (cmds & st' & Hgen);
    [done..|].
  erewrite bind_val by exact Hgen.
  erewrite bind_val by reflexivity. by eexists _, _.
Qed.

(** C5: a batch that the loop has built holds [pipelineSize + 1] commands,
    where [pipelineSize = rand() % 10 + 1] lies in [1, 10] and takes each of
    these values for a suitable value of [rand]; its last command is
    [PING <port>] as it stands, whether fuzzing is enabled or not. *)
Theorem batch_shape env cfg temp fileLength st cmds st' :
  build_batch env cfg temp fileLength st = (Val cmds, st') →
  let pipelineSize := Z.rem (rand_val env (rand_pos st)) 10 + 1 in
  1 ≤ pipelineSize ≤ 10 ∧
  Z.of_nat (length cmds) = pipelineSize + 1 ∧
  last cmds = Some (lit "PING " ++ to_string (port cfg)) ∧
  (∀ v, 1 ≤ v ≤ 10 → rand_src env (rand_pos st) = v - 1 → pipelineSize = v).
Proof.
  intros Hb pipelineSize.
  apply build_batch_inv in Hb as (_ & new & -> & Hlen & _).
  split; [|split; [|split]].
  - apply pipelineSize_range, rand_val_range.
  - rewrite length_app. cbn [length]. subst pipelineSize. lia.
  - apply last_snoc.
  - intros v Hv Hsrc. subst pipelineSize. unfold rand_val, RAND_MAX.
    rewrite Hsrc. rewrite Z.mod_small by lia.
    rewrite Z.rem_small by lia. lia.
Qed.

Lemma batch_shape_witness :
  let cmds := [lit "SET k v"; lit "GET k"; lit "SET k v"; lit "PING 6379"] in
  let pipelineSize :=
    Z.rem (rand_val (sample_env 9 9) (rand_pos (initial sample_fs))) 10 + 1 in
  1 ≤ pipelineSize ≤ 10 ∧
  Z.of_nat (length cmds) = pipelineSize + 1 ∧
  last cmds = Some (lit "PING " ++ to_string (port (sample_cfg 1 false))) ∧
  (∀ v, 1 ≤ v ≤ 10 →
        rand_src (sample_env 9 9) (rand_pos (initial sample_fs)) = v - 1 →
        pipelineSize = v).
Proof.
  apply (batch_shape (sample_env 9 9) (sample_cfg 1 false) sample_temp 2
           (initial sample_fs) _
           (build_batch (sample_env 9 9) (sample_cfg 1 false) sample_temp 2
              (initial sample_fs)).2).
  vm_compute. reflexivity.
Defined.

(** ** C6: one order in the scratch file, on the wire and in the log *)

(** C6 (what the code does at the failing input): the command file has one
    line, [GET] followed by a NUL byte and [k].  The iteration completes;
    the scratch file and the log hold the commands of the batch as they
    were built, one per line, but line 187 passes [cmd.c_str()] to
    [redisAppendCommand] as the format, and the library receives [GET] for
    each sampled command: what goes to the connection is not what was
    staged and logged. *)
Theorem nul_byte_cuts_the_format :
  let cmd := lit "GET" ++ NUL :: lit "k" in
  let cmds := [cmd; cmd; cmd; lit "PING 6379"] in
  let run := loop_body (sample_env 9 9) (sample_cfg 1 false) sample_temp
               sample_output 1 1 (initial nul_fs) in
  run.1 = Val () ∧
  pipeline run.2 = cmds ∧
  fs run.2 !! sample_temp = Some (unlines cmds) ∧
  fs run.2 !! sample_output = Some (log_header 1 ++ unlines cmds) ∧
  formats run.2 = [lit "GET"; lit "GET"; lit "GET"; lit "PING 6379"].
Proof. vm_compute. repeat split; reflexivity. Qed.

(** Where the sequences do agree.  For a batch [cmds] that was built, the
    scratch file holds the commands of [cmds] one per line (its [i]-th line
    is the [i]-th command); [redisAppendCommand] is called for the commands
    of [cmds] in this order and the library receives the C string of each,
    which is the command itself when it has no NUL byte; and when no
    command holds a [%], every reply of the batch is read, the log opens and
    the scratch file opens for reading, the iteration completes and has
    appended the header and then the commands of [cmds], one per line, to
    the log. *)
Lemma batch_sequences_agree env cfg temp out fileLength batchNum st cmds st1 :
  temp ≠ out →
  build_batch env cfg temp fileLength st = (Val cmds, st1) →
  (fs st1 !! temp = Some (unlines cmds) ∧
   ∀ i : nat, (i < length cmds)%nat →
     cmds !! i = Some (readLineFromFile (fs st1) temp (Z.of_nat i))) ∧
  (∃ st2, send_batch cmds st1 = (Val (), st2) ∧
          pipeline st2 = pipeline st ++ cmds ∧
          formats st2 = formats st ++ map c_str cmds ∧
          (Forall (λ cmd, NUL ∉ cmd) cmds → formats st2 = formats st ++ cmds) ∧
          fs st2 = fs st1) ∧
  (Forall conversion_free cmds →
   (∀ i : nat, (i < length cmds)%nat → reply_ok env (reads st + i) = true) →
   ofstream_ok env (S (opens st)) = true →
   ifstream_ok env (S (S (opens st))) = true →
   ∃ st', loop_body env cfg temp out fileLength batchNum st = (Val (), st') ∧
          fs st' !! temp = Some (unlines cmds) ∧
          pipeline st' = pipeline st ++ cmds ∧
          formats st' = formats st ++ map c_str cmds ∧
          content (fs st') out
          = content (fs st) out ++ log_header batchNum ++ unlines cmds).
Proof.
  intros Hne Hb.
  pose proof Hb as (_ & new & Hcmds & Hlen & Hnf & _ & Hst1)%build_batch_inv.
  assert (fs st1 !! temp = Some (unlines cmds)) as Htemp.
  { rewrite Hst1. cbn. apply lookup_insert_eq. }
  assert (opens st1 = S (opens st)) as Hopens by (by rewrite Hst1).
  assert (reads st1 = reads st) as Hreads by (by rewrite Hst1).
  assert (pipeline st1 = pipeline st) as Hpipe by (by rewrite Hst1).
  assert (formats st1 = formats st) as Hfmt by (by rewrite Hst1).
  split_and!.
  - done.
  - intros i Hi.
    assert (text_lines cmds [] = cmds) as Hlines
      by (unfold text_lines; rewrite decide_True by done; apply app_nil_r).
    rewrite <- Hlines at 1.
    apply readLineFromFile_spec; try done.
    + apply not_elem_of_nil.
    + by rewrite app_nil_r.
    + pose proof (pipelineSize_range _
                    (proj1 (rand_val_range env (rand_pos st)))) as Hp.
      rewrite Hcmds, length_app in Hi. cbn in Hi.
      unfold INT_MAX. lia.
    + by rewrite Hlines.
  - eexists. split; [apply send_batch_spec|].
    cbn [push_commands fs pipeline formats]. rewrite Hpipe, Hfmt.
    split_and!; [done..| |done].
    intros Hnul. f_equal. clear -Hnul.
    induction Hnul as [|cmd cmds Hcmd _ IH]; [done|].
    cbn [map]. f_equal; [by apply c_str_id|done].
  - intros _ Hall Hlog Hread.
    eexists. split.
    { apply loop_body_success; [done|exact Hb| |by rewrite Hopens].
      intros i Hi. rewrite Hreads. by apply Hall. }
    rewrite Hopens, Hread.
    unfold tick_opens, set_fs, answered, add_reads, push_commands, append_file,
      logged.
    cbn [fs rand_pos opens pipeline formats reads replies context].
    rewrite lookup_insert_ne by done.
    rewrite content_insert_eq, Hpipe, Hfmt.
    split_and!; [done..|].
    rewrite Hst1. cbn [fs tick_opens staged].
    by rewrite content_insert_ne by done.
Qed.

Lemma batch_sequences_agree_witness :
  let cmds := [lit "SET k v"; lit "GET k"; lit "SET k v"; lit "PING 6379"] in
  let st := initial sample_fs in
  ∃ st', loop_body (sample_env 9 9) (sample_cfg 1 false) sample_temp
           sample_output 2 1 st = (Val (), st') ∧
         fs st' !! sample_temp = Some (unlines cmds) ∧
         pipeline st' = pipeline st ++ cmds ∧
         formats st' = formats st ++ map c_str cmds ∧
         content (fs st') sample_output
         = content (fs st) sample_output ++ log_header 1 ++ unlines cmds.
Proof.
  apply (batch_sequences_agree (sample_env 9 9) (sample_cfg 1 false)
           sample_temp sample_output 2 1 (initial sample_fs) _
           (build_batch (sample_env 9 9) (sample_cfg 1 false) sample_temp 2
              (initial sample_fs)).2).
  - discriminate.
  - vm_compute. reflexivity.
  - unfold conversion_free. compute_done.
  - intros i Hi. do 4 (destruct i as [|i]; [reflexivity|]). cbn in Hi. lia.
  - reflexivity.
  - reflexivity.
Defined.

(** ** C7: a reply that cannot be read ends the run *)

(** C7: let [a] iterations have completed and the next batch [cmds] be
    built, and let the reply with index [j] of this batch (the [(j+1)]-th
    one) be the first that cannot be read.  Then the loop returns 1 from
    [main] after [j + 1] calls of [redisGetReply], of which [j] delivered a
    reply; no file was touched after the batch was staged (the log holds what
    it held before this batch and was not opened), no further random value
    was drawn and no further command was handed to the connection, however
    many iterations were still to come; the connection is released. *)
Theorem reply_failure_stops_run env cfg temp out fileLength a k batchNum
    st0 st cmds st1 (j : nat) :
  temp ≠ out →
  main_loop env cfg temp out fileLength a batchNum st0 = (Val (), st) →
  build_batch env cfg temp fileLength st = (Val cmds, st1) →
  (j < length cmds)%nat →
  (∀ i, (i < j)%nat → reply_ok env (reads st + i) = true) →
  reply_ok env (reads st + j) = false →
  ∃ st',
    main_loop env cfg temp out fileLength (a + S k) batchNum st0 = (Exit 1, st') ∧
    reads st' = (S j + reads st)%nat ∧
    replies st' = (j + replies st)%nat ∧
    fs st' = fs st1 ∧
    content (fs st') out = content (fs st) out ∧
    opens st' = opens st1 ∧
    rand_pos st' = rand_pos st1 ∧
    pipeline st' = pipeline st ++ cmds ∧
    context st' = Freed.
Proof.
  intros Hne Hloop Hb Hj Hall Hbad.
  pose proof Hb as (_ & new & _ & _ & _ & _ & Hst1)%build_batch_inv.
  assert (reads st1 = reads st) as Hreads by (by rewrite Hst1).
  assert (replies st1 = replies st) as Hreplies by (by rewrite Hst1).
  assert (pipeline st1 = pipeline st) as Hpipe by (by rewrite Hst1).
  assert (content (fs st1) out = content (fs st) out) as Hlog.
  { rewrite Hst1. cbn. by rewrite content_insert_ne. }
  eexists. split.
  - rewrite main_loop_app. erewrite bind_val by exact Hloop.
    cbn [main_loop]. eapply bind_exit.
    apply (loop_body_reply_fail _ _ _ _ _ _ _ _ _ j Hb Hj);
      by rewrite Hreads.
  - cbn [reads replies fs opens rand_pos pipeline context set_context
           add_reads push_commands].
    by rewrite Hreads, Hreplies, Hpipe, Hlog.
Qed.

Lemma reply_failure_stops_run_witness :
  let env := sample_env 9 2 in
  let cfg := sample_cfg 5 false in
  let st := initial sample_fs in
  let cmds := [lit "SET k v"; lit "GET k"; lit "SET k v"; lit "PING 6379"] in
  let st1 := (build_batch env cfg sample_temp 2 st).2 in
  ∃ st',
    main_loop env cfg sample_temp sample_output 2 (0 + 5) 1 st = (Exit 1, st') ∧
    reads st' = (3 + reads st)%nat ∧
    replies st' = (2 + replies st)%nat ∧
    fs st' = fs st1 ∧
    content (fs st') sample_output = content (fs st) sample_output ∧
    opens st' = opens st1 ∧
    rand_pos st' = rand_pos st1 ∧
    pipeline st' = pipeline st ++ cmds ∧
    context st' = Freed.
Proof.
  apply (reply_failure_stops_run (sample_env 9 2) (sample_cfg 5 false)
           sample_temp sample_output 2 0 4 1 (initial sample_fs)
           (initial sample_fs)).
  - discriminate.
  - reflexivity.
  - vm_compute. reflexivity.
  - cbn. lia.
  - intros [|[|i]] Hi; [reflexivity..|lia].
  - reflexivity.
Defined.

(** A [return 1] inside the loop is the exit status of [main]. *)
Lemma main_loop_exit env cfg st temp code st' :
  mkstemp_res env = Some temp →
  countFileLines (<[temp := []]> (fs st)) (commandsFile cfg) ≠ 0 →
  connect_res env = ConnectOk →
  main_loop env cfg temp (output_name env)
    (countFileLines (<[temp := []]> (fs st)) (commandsFile cfg))
    (Z.to_nat (numBatches cfg)) 1
    (set_context Live (set_fs (insert temp []) st)) = (Exit code, st') →
  main env cfg st = (Exit code, st').
Proof.
  intros Htemp Hlen Hconn Hloop.
  rewrite (main_startup _ _ _ temp) by done. by eapply bind_exit.
Qed.

(** ** C8: what is released on the way out *)

(** Whenever [main] returns from an error branch, the status is 1, the
    connection is not left open, and the scratch file that [mkstemp]
    created is still there. *)
Lemma main_error_exit_keeps_scratch env cfg st temp code st' :
  mkstemp_res env = Some temp → temp ≠ output_name env →
  context st = NoContext →
  main env cfg st = (Exit code, st') →
  code = 1 ∧ context st' ≠ Live ∧ is_Some (fs st' !! temp).
Proof.
  intros Htemp Hne Hctx. unfold main.
  erewrite bind_val by (unfold createTempFile; by rewrite Htemp).
  erewrite bind_val by reflexivity.
  erewrite bind_val by reflexivity.
  cbn [fs set_fs].
  case_decide as Hlen.
  { intros [= <- <-]. cbn. rewrite Hctx, lookup_insert_eq. by eauto. }
  erewrite bind_val by reflexivity.
  destruct (connect_res env) eqn:Hconn.
  - intros [= <- <-]. cbn. rewrite Hctx, lookup_insert_eq. by eauto.
  - intros [= <- <-]. cbn. rewrite lookup_insert_eq. by eauto.
  - unfold mbind at 1, prog_bind at 1.
    match goal with |- context [main_loop ?e ?c ?t ?o ?l ?k ?n ?s] =>
      destruct (orderly_main_loop e c t o l Hne k n s) as [[_ Hkept] Hexit];
      destruct (main_loop e c t o l k n s) as [[[]| |] st1] eqn:Hloop
    end; [done| |done].
    intros [= <- <-]. cbn in Hexit, Hkept.
    destruct (Hexit _ eq_refl) as [-> Hfreed].
    split_and!; [done|by rewrite Hfreed|].
    apply Hkept. cbn. rewrite lookup_insert_eq. by eauto.
Qed.

(** C8 (what the code does at the failing inputs): a run of two batches in
    which the scratch file cannot be reopened, in which the third reply
    cannot be read, and in which the log cannot be opened.  Each run returns
    1 with the connection released, and each leaves the scratch file in
    place; only the run that completes removes it. *)
Theorem error_exits_leave_scratch_file :
  let batch := [lit "SET k v"; lit "GET k"; lit "SET k v"; lit "PING 6379"] in
  (exit_code (sample_run 0 99).1 = Some 1 ∧
   context (sample_run 0 99).2 = Freed ∧
   fs (sample_run 0 99).2 !! sample_temp = Some []) ∧
  (exit_code (sample_run 99 2).1 = Some 1 ∧
   context (sample_run 99 2).2 = Freed ∧
   fs (sample_run 99 2).2 !! sample_temp = Some (unlines batch)) ∧
  (exit_code (sample_run 1 99).1 = Some 1 ∧
   context (sample_run 1 99).2 = Freed ∧
   fs (sample_run 1 99).2 !! sample_temp = Some (unlines batch)) ∧
  (exit_code (sample_run 99 99).1 = Some 0 ∧
   context (sample_run 99 99).2 = Freed ∧
   fs (sample_run 99 99).2 !! sample_temp = None).
Proof. vm_compute. repeat split; reflexivity. Qed.

(** ** C9: the format of the log *)

(** C9 (what the code does at the failing input): let a batch [cmds] of
    commands without [%] be built, every reply of it be read and the log be
    opened, but let the scratch file not open for reading it back.  The
    stream [readTempFile]
    is never tested (the two output streams are), so the iteration
    completes as if nothing had happened: [redisAppendCommand] was called
    for every command of [cmds] and every reply was obtained, yet the entry
    of the batch in the log is the empty line and the header alone, and the
    connection stays open for the next batch. *)
Theorem unreadable_scratch_logs_header_only env cfg temp out fileLength
    batchNum st cmds st1 :
  temp ≠ out →
  build_batch env cfg temp fileLength st = (Val cmds, st1) →
  Forall conversion_free cmds →
  (∀ i : nat, (i < length cmds)%nat → reply_ok env (reads st + i) = true) →
  ofstream_ok env (S (opens st)) = true →
  ifstream_ok env (S (S (opens st))) = false →
  ∃ st', loop_body env cfg temp out fileLength batchNum st = (Val (), st') ∧
         pipeline st' = pipeline st ++ cmds ∧
         replies st' = (length cmds + replies st)%nat ∧
         fs st' !! temp = Some (unlines cmds) ∧
         content (fs st') out
         = content (fs st) out ++ [newline] ++ lit "BATCH NUMBER - "
           ++ to_string batchNum ++ [newline] ∧
         context st' = context st.
Proof.
  intros Hne Hb _ Hall Hlog Hread.
  pose proof Hb as (_ & _ & _ & _ & _ & _ & Hst1)%build_batch_inv.
  assert (opens st1 = S (opens st)) as Hopens by (by rewrite Hst1).
  assert (reads st1 = reads st) as Hreads by (by rewrite Hst1).
  eexists. split.
  { apply loop_body_success; [done|exact Hb| |by rewrite Hopens].
    intros i Hi. rewrite Hreads. by apply Hall. }
  rewrite Hopens, Hread.
  unfold tick_opens, set_fs, answered, add_reads, push_commands, append_file,
    logged, log_header.
  cbn [fs rand_pos opens pipeline formats reads replies context].
  rewrite lookup_insert_ne by done.
  rewrite content_insert_eq, app_nil_r.
  rewrite Hst1. cbn [fs rand_pos opens pipeline formats reads replies context
                     tick_opens staged].
  rewrite content_insert_ne by done.
  split_and!; [done|done|apply lookup_insert_eq|done|done].
Qed.

Lemma unreadable_scratch_logs_header_only_witness :
  let cmds := [lit "SET k v"; lit "GET k"; lit "SET k v"; lit "PING 6379"] in
  let st := initial sample_fs in
  ∃ st', loop_body (unreadable_env 2) (sample_cfg 2 false) sample_temp
           sample_output 2 1 st = (Val (), st') ∧
         pipeline st' = pipeline st ++ cmds ∧
         replies st' = (length cmds + replies st)%nat ∧
         fs st' !! sample_temp = Some (unlines cmds) ∧
         content (fs st') sample_output
         = content (fs st) sample_output ++ [newline] ++ lit "BATCH NUMBER - "
           ++ to_string 1 ++ [newline] ∧
         context st' = context st.
Proof.
  apply (unreadable_scratch_logs_header_only (unreadable_env 2)
           (sample_cfg 2 false) sample_temp sample_output 2 1
           (initial sample_fs) _
           (build_batch (unreadable_env 2) (sample_cfg 2 false) sample_temp 2
              (initial sample_fs)).2).
  - discriminate.
  - vm_compute. reflexivity.
  - unfold conversion_free. compute_done.
  - intros i Hi. do 4 (destruct i as [|i]; [reflexivity|]). cbn in Hi. lia.
  - reflexivity.
  - reflexivity.
Defined.

(** The whole run at this input: two batches are sent and answered and
    [main] returns 0, but the log holds no command of the first batch. *)
Example unreadable_run_log :
  let batch1 := [lit "SET k v"; lit "GET k"; lit "SET k v"; lit "PING 6379"] in
  let batch2 := [lit "SET k v"; lit "PING 6379"] in
  unreadable_run.1 = Val 0 ∧
  pipeline unreadable_run.2 = batch1 ++ batch2 ∧
  replies unreadable_run.2 = 6%nat ∧
  fs unreadable_run.2 !! sample_output
  = Some (log_header 1 ++ log_entry 2 batch2) ∧
  fs (sample_run 99 99).2 !! sample_output
  = Some (log_entry 1 batch1 ++ log_entry 2 batch2).
Proof. vm_compute. repeat split; reflexivity. Qed.

(** For the iterations whose scratch file can be read back, the entries are
    complete: when [k] iterations starting from batch number 1 have
    completed, the log has grown by the entries of [k] batches numbered 1,
    2, ..., [k] in this order; and on every path the log only grows at its
    end. *)
Lemma readable_log_entries env cfg temp out fileLength (k : nat) st :
  temp ≠ out →
  let run := main_loop env cfg temp out fileLength k 1 st in
  content (fs st) out `prefix_of` content (fs run.2) out ∧
  ((∀ n, ifstream_ok env n = true) →
   ∀ st', run = (Val (), st') →
     ∃ batches,
       length batches = k ∧
       content (fs st') out = content (fs st) out ++ log_entries 1 batches ∧
       pipeline st' = pipeline st ++ concat batches).
Proof.
  intros Hne run. split.
  - apply (orderly_main_loop env cfg temp out fileLength Hne k 1 st).
  - intros Hread st' Hrun.
    destruct (main_loop_success env cfg temp out fileLength k 1 st st')
      as (batches & Hlen & _ & Hlog & Hpipe & _); try done.
    by exists batches.
Qed.

(** The log of the sample run of two batches. *)
Example sample_log :
  fs (sample_run 99 99).2 !! sample_output
  = Some ([newline] ++ lit "BATCH NUMBER - 1" ++ [newline]
          ++ unlines [lit "SET k v"; lit "GET k"; lit "SET k v"; lit "PING 6379"]
          ++ [newline] ++ lit "BATCH NUMBER - 2" ++ [newline]
          ++ unlines [lit "SET k v"; lit "PING 6379"]).
Proof. vm_compute. reflexivity. Qed.

(** ** C10: no batch requested *)

(** C10: when the number of batches is zero or negative (and the start-up
    went through: the scratch file was created, the command file has lines
    and the connection is open), [main] returns 0; no random value was drawn,
    no output stream was opened, nothing was handed to the connection and no
    reply was read, the log is as it was, the scratch file is gone and the
    connection is released. *)
Theorem no_batches_requested env cfg st temp :
  numBatches cfg ≤ 0 →
  mkstemp_res env = Some temp →
  countFileLines (<[temp := []]> (fs st)) (commandsFile cfg) ≠ 0 →
  connect_res env = ConnectOk →
  ∃ st',
    main env cfg st = (Val 0, st') ∧
    rand_pos st' = rand_pos st ∧
    opens st' = opens st ∧
    pipeline st' = pipeline st ∧
    reads st' = reads st ∧
    replies st' = replies st ∧
    context st' = Freed ∧
    fs st' = delete temp (fs st) ∧
    fs st' !! temp = None ∧
    (∀ path, path ≠ temp → fs st' !! path = fs st !! path).
Proof.
  intros Hn Htemp Hlen Hconn.
  eexists. split.
  - rewrite (main_startup _ _ _ temp) by done.
    replace (Z.to_nat (numBatches cfg)) with 0%nat by lia.
    reflexivity.
  - cbn. rewrite delete_insert_eq.
    split_and!; try done.
    + apply lookup_delete_eq.
    + intros path Hpath. by apply lookup_delete_ne.
Qed.

Lemma no_batches_requested_witness :
  ∃ st',
    main (sample_env 9 99) (sample_cfg (-3) true) (initial sample_fs)
    = (Val 0, st') ∧
    rand_pos st' = 0%nat ∧
    opens st' = 0%nat ∧
    pipeline st' = [] ∧
    reads st' = 0%nat ∧
    replies st' = 0%nat ∧
    context st' = Freed ∧
    fs st' = delete sample_temp sample_fs ∧
    fs st' !! sample_temp = None ∧
    (∀ path, path ≠ sample_temp → fs st' !! path = sample_fs !! path).
Proof.
  apply (no_batches_requested (sample_env 9 99) (sample_cfg (-3) true)
           (initial sample_fs) sample_temp).
  - cbn. lia.
  - reflexivity.
  - vm_compute. discriminate.
  - reflexivity.
Defined.

(** * Further properties of the code *)

(** ** Every text file *)

Lemma split_text_spec text :
  Forall newline_free (split_text text).1 ∧ newline_free (split_text text).2 ∧
  text = unlines (split_text text).1 ++ (split_text text).2.
Proof.
  induction text as [|c text IH]; cbn [split_text].
  - split_and!; [constructor|apply not_elem_of_nil|done].
  - destruct (split_text text) as [init tail]. cbn [fst snd] in *.
    destruct IH as (Hinit & Htail & ->).
    case_decide as Hc; cbn [fst snd].
    + subst c. split_and!; [|done|done].
      constructor; [apply not_elem_of_nil|done].
    + destruct init as [|l init]; cbn [fst snd].
      * split_and!; [done| |done].
        apply not_elem_of_cons. split; [congruence|done].
      * apply Forall_cons in Hinit as [Hl Hinit].
        split_and!; [|done|done].
        constructor; [|done]. apply not_elem_of_cons. split; [congruence|done].
Qed.

Lemma readLine_loop_past_end init : ∀ tail fuel line cur lineNum,
  Forall newline_free init → newline_free tail →
  (length (unlines init ++ tail) < fuel)%nat →
  0 ≤ cur → cur + Z.of_nat (length (text_lines init tail)) ≤ lineNum →
  lineNum ≤ INT_MAX →
  readLine_loop fuel (mk_ifstream (unlines init ++ tail) false false)
    line cur lineNum = tail.
Proof.
  induction init as [|l init IH];
    intros tail fuel line cur lineNum Hinit Htail Hfuel Hcur Hk Hmax.
  - unfold text_lines in Hk. cbn in Hfuel, Hk |- *.
    destruct fuel as [|fuel]; [lia|]. cbn [readLine_loop].
    case_decide as Ht.
    + by subst tail.
    + rewrite getline_last by done. cbn in Hk.
      replace (cur <? lineNum) with true by (symmetry; apply Z.ltb_lt; lia).
      cbn [andb].
      by destruct fuel.
  - apply Forall_cons in Hinit as [Hl Hinit].
    rewrite unlines_cons in *.
    destruct fuel as [|fuel]; [cbn in Hfuel; lia|]. cbn [readLine_loop].
    rewrite getline_line by done.
    unfold text_lines in Hk. cbn in Hk.
    replace (cur <? lineNum) with true by (symmetry; apply Z.ltb_lt; lia).
    cbn [andb]. rewrite int_succ_small by (unfold INT_MAX in *; lia).
    apply IH; try done.
    + rewrite length_app in Hfuel. cbn in Hfuel. lia.
    + lia.
    + unfold text_lines. lia.
Qed.

Lemma readLineFromFile_nonpositive (m : gmap string str) path lineNum :
  lineNum ≤ 0 → readLineFromFile m path lineNum = readLineFromFile m path 0.
Proof.
  intros Hn. unfold readLineFromFile, file_fuel. cbn [readLine_loop].
  destruct (getline (open_in m path) []) as [[f' line'] ok].
  replace (0 <? lineNum) with false by (symmetry; apply Z.ltb_ge; lia).
  by rewrite !andb_false_r.
Qed.

(** X1: what [readLineFromFile] answers for any file and any line number.
    A number that is zero or negative gives the first line (the empty
    string when the file has no line); a number below the line count gives
    that line; a number from the line count on gives what follows the last
    line break of the file: the empty string when the file ends with a line
    break, the last line once more when it does not. *)
Theorem readLineFromFile_any_index (m : gmap string str) path text lineNum :
  m !! path = Some text → lineNum ≤ INT_MAX →
  let lines := file_lines text in
  (lineNum ≤ 0 → readLineFromFile m path lineNum = default [] (lines !! 0%nat)) ∧
  (0 ≤ lineNum < Z.of_nat (length lines) →
   lines !! Z.to_nat lineNum = Some (readLineFromFile m path lineNum)) ∧
  (Z.of_nat (length lines) ≤ lineNum →
   readLineFromFile m path lineNum = (split_text text).2).
Proof.
  intros Hm Hmax lines.
  destruct (split_text_spec text) as (Hinit & Htail & Htext).
  assert (m !! path = Some (unlines (split_text text).1 ++ (split_text text).2))
    as Hm' by (by rewrite <- Htext).
  assert (∀ n, 0 ≤ n ≤ INT_MAX → Z.of_nat (length lines) ≤ n →
               readLineFromFile m path n = (split_text text).2) as Hpast.
  { intros n Hn Hge. unfold readLineFromFile, open_in, file_fuel.
    rewrite Hm. cbn [buf]. rewrite Htext at 2.
    apply readLine_loop_past_end; try done.
    - rewrite <- Htext. lia.
    - lia. }
  assert (∀ n, 0 ≤ n ≤ INT_MAX → n < Z.of_nat (length lines) →
               lines !! Z.to_nat n = Some (readLineFromFile m path n)) as Hin.
  { intros n Hn Hlt. rewrite <- (Z2Nat.id n) at 2 by lia.
    apply readLineFromFile_spec; try done; [lia|].
    fold (file_lines text). fold lines. lia. }
  split_and!.
  - intros Hn. rewrite readLineFromFile_nonpositive by done.
    destruct (decide (0 < Z.of_nat (length lines))) as [Hlt|Hge].
    + specialize (Hin 0 ltac:(unfold INT_MAX; lia) Hlt).
      change (Z.to_nat 0) with 0%nat in Hin. by rewrite Hin.
    + rewrite Hpast by (unfold INT_MAX; lia).
      assert (length lines = 0%nat) as Hnil by lia.
      apply nil_length_inv in Hnil. rewrite Hnil. cbn.
      unfold lines, file_lines, text_lines in Hnil.
      apply app_eq_nil in Hnil as [_ Hnil].
      by case_decide.
  - intros Hn. apply Hin; lia.
  - intros Hn. apply Hpast; [|done]. lia.
Qed.

Lemma readLineFromFile_any_index_witness :
  let m : gmap string str :=
    {[ "f"%string := lit "GET k" ++ newline :: lit "SET k v" ]} in
  let lines := file_lines (lit "GET k" ++ newline :: lit "SET k v") in
  (5 ≤ 0 → readLineFromFile m "f" 5 = default [] (lines !! 0%nat)) ∧
  (0 ≤ 5 < Z.of_nat (length lines) →
   lines !! Z.to_nat 5 = Some (readLineFromFile m "f" 5)) ∧
  (Z.of_nat (length lines) ≤ 5 →
   readLineFromFile m "f" 5
   = (split_text (lit "GET k" ++ newline :: lit "SET k v")).2).
Proof.
  apply (readLineFromFile_any_index _ "f"%string
           (lit "GET k" ++ newline :: lit "SET k v") 5).
  - apply lookup_singleton_eq.
  - vm_compute. discriminate.
Defined.

(** Past the end of a file without a final line break the last line comes
    back; with the final line break it is the empty string. *)
Example readLineFromFile_past_end :
  readLineFromFile {[ "f"%string := lit "GET k" ++ newline :: lit "SET k v" ]}
    "f" 5 = lit "SET k v" ∧
  readLineFromFile
    {[ "f"%string := lit "GET k" ++ newline :: lit "SET k v" ++ [newline] ]}
    "f" 5 = [].
Proof. split; vm_compute; reflexivity. Qed.

(** ** Counting lines *)

Lemma filter_newline_free (l : str) :
  newline_free l → filter (λ c, c = newline) l = [].
Proof.
  unfold newline_free. induction l as [|c l IH]; intros Hl; [done|].
  apply not_elem_of_cons in Hl as [Hc Hl].
  rewrite filter_cons_False by congruence. auto.
Qed.

Lemma newlines_of_text init : ∀ tail,
  Forall newline_free init → newline_free tail →
  length (filter (λ c, c = newline) (unlines init ++ tail)) = length init.
Proof.
  induction init as [|l init IH]; intros tail Hinit Htail.
  - cbn. by rewrite filter_newline_free.
  - apply Forall_cons in Hinit as [Hl Hinit].
    rewrite unlines_cons, filter_app, filter_newline_free by done.
    rewrite filter_cons_True by done. cbn. by rewrite IH.
Qed.

Lemma open_tail_iff text :
  (split_text text).2 = [] ↔ text = [] ∨ last text = Some newline.
Proof.
  destruct (split_text_spec text) as (Hinit & Htail & Htext).
  destruct (split_text text) as [init tail]. cbn [fst snd] in *. subst text.
  split.
  - intros ->. rewrite app_nil_r.
    destruct init as [|l init _] using rev_ind; [by left|right].
    rewrite unlines_app. unfold unlines at 2. cbn [map concat].
    rewrite app_nil_r, !app_assoc. apply last_snoc.
  - intros [Hnil|Hlast].
    + by apply app_eq_nil in Hnil as [_ ->].
    + destruct tail as [|c tail]; [done|exfalso].
      rewrite last_app in Hlast.
      destruct (last (c :: tail)) as [x|] eqn:Hx.
      * injection Hlast as ->. by apply last_Some_elem_of in Hx.
      * by apply last_None in Hx.
Qed.

(** X2: [countFileLines] counts the line breaks of the file, and one more
    when the file is not empty and does not end with a line break (as long
    as the count fits an [int]). *)
Theorem countFileLines_counts_newlines (m : gmap string str) path text :
  m !! path = Some text →
  let breaks := Z.of_nat (length (filter (λ c, c = newline) text)) in
  let rest := if decide (text = [] ∨ last text = Some newline) then 0 else 1 in
  breaks + rest ≤ INT_MAX →
  countFileLines m path = breaks + rest ∧
  countFileLines m path = Z.of_nat (length (file_lines text)).
Proof.
  intros Hm breaks rest Hmax.
  destruct (split_text_spec text) as (Hinit & Htail & Htext).
  pose proof (open_tail_iff text) as Hopen.
  unfold file_lines.
  destruct (split_text text) as [init tail]. cbn [fst snd] in *.
  assert (breaks = Z.of_nat (length init)) as Hbreaks.
  { unfold breaks. by rewrite Htext, newlines_of_text. }
  assert (Z.of_nat (length (text_lines init tail)) = breaks + rest) as Hlen.
  { rewrite Hbreaks. unfold rest, text_lines. rewrite length_app.
    destruct (decide (tail = [])) as [Ht|Ht].
    - rewrite decide_True by (by apply Hopen). cbn. lia.
    - rewrite decide_False by (by rewrite <- Hopen). cbn. lia. }
  assert (countFileLines m path = Z.of_nat (length (text_lines init tail)))
    as Hcount.
  { apply countFileLines_spec; try done; [by rewrite <- Htext|lia]. }
  split; [by rewrite <- Hlen|done].
Qed.

Lemma countFileLines_counts_newlines_witness :
  countFileLines sample_fs "/root/cmds.txt" = 2 + 0 ∧
  countFileLines sample_fs "/root/cmds.txt"
  = Z.of_nat (length (file_lines (unlines sample_corpus))).
Proof.
  apply (countFileLines_counts_newlines sample_fs "/root/cmds.txt"
           (unlines sample_corpus)).
  - apply lookup_singleton_eq.
  - vm_compute. discriminate.
Defined.

(** ** Fuzzing a command *)

(** X3: for a non-empty command, fuzzing draws exactly two random values and
    returns a string from which the command comes back by removing the
    character at the insertion index; that character is one of the special
    characters, and a command without a line break stays without one.
    Without fuzzing the command comes back as it is and nothing is drawn. *)
Theorem fuzzCommand_round_trip env (s : str) st :
  s ≠ [] →
  fuzzCommand env s false st = (Val s, st) ∧
  ∃ (i : nat) out ch,
    fuzzCommand env s true st = (Val out, tick_rand 2 st) ∧
    (i < length s)%nat ∧
    out !! i = Some ch ∧ ch ∈ specialChars ∧
    delete i out = s ∧
    length out = S (length s) ∧
    (newline_free s → newline_free out).
Proof.
  intros Hne. split; [done|].
  destruct (fuzzCommand_nonempty env s st Hne) as (ch & _ & Hin & Hlt & Heq).
  revert Hlt Heq.
  generalize (Z.to_nat (rand_val env (rand_pos st) mod Z.of_nat (length s))).
  intros i Hlt Heq.
  assert (length (take i s) = i) as Htake by (rewrite length_take; lia).
  exists i, (take i s ++ ch :: drop i s), ch. split_and!; try done.
  - rewrite <- Htake at 1. apply list_lookup_middle. done.
  - rewrite <- Htake at 1. rewrite delete_middle. apply take_drop.
  - rewrite length_app. cbn [length].
    by rewrite Nat.add_succ_r, <- length_app, take_drop.
  - intros Hs. apply (fuzzCommand_inv env s true st _ _ Heq). done.
Qed.

Lemma fuzzCommand_round_trip_witness :
  fuzzCommand (sample_env 9 9) (lit "GET k") false (initial sample_fs)
  = (Val (lit "GET k"), initial sample_fs) ∧
  ∃ (i : nat) out ch,
    fuzzCommand (sample_env 9 9) (lit "GET k") true (initial sample_fs)
    = (Val out, tick_rand 2 (initial sample_fs)) ∧
    (i < length (lit "GET k"))%nat ∧
    out !! i = Some ch ∧ ch ∈ specialChars ∧
    delete i out = lit "GET k" ∧
    length out = S (length (lit "GET k")) ∧
    (newline_free (lit "GET k") → newline_free out).
Proof.
  apply (fuzzCommand_round_trip (sample_env 9 9) (lit "GET k")
           (initial sample_fs)).
  discriminate.
Defined.

(** ** What one iteration uses *)

Lemma fuzzCommand_ticks env cmd b st f st' :
  fuzzCommand env cmd b st = (Val f, st') →
  st' = tick_rand (if b then 2 else 0) st.
Proof.
  destruct b.
  - destruct (decide (cmd = [])) as [->|Hne]; [done|].
    destruct (fuzzCommand_nonempty env cmd st Hne) as (ch & _ & _ & _ & ->).
    by intros [= <- <-].
  - intros [= <- <-]. by rewrite tick_rand_0.
Qed.

Lemma gen_commands_rand env cfg temp fileLength n : ∀ acc st cmds st',
  gen_commands env cfg temp fileLength n acc st = (Val cmds, st') →
  rand_pos st'
  = (n * (if fuzzEnabled cfg then 3 else 1) + rand_pos st)%nat.
Proof.
  induction n as [|n IH]; intros acc st cmds st' Hrun.
  - by injection Hrun as <- <-.
  - cbn [gen_commands] in Hrun.
    apply bind_val_inv in Hrun as (cmd & st1 & Hcmd & Hrun).
    apply bind_val_inv in Hrun as (f & st2 & Hf & Hrun).
    apply bind_val_inv in Hrun as ([] & st3 & Hw & Hrun).
    apply randomCommand_inv in Hcmd as (-> & _ & _).
    apply fuzzCommand_ticks in Hf as ->.
    injection Hw as <-.
    apply IH in Hrun. rewrite Hrun. cbn.
    destruct (fuzzEnabled cfg); lia.
Qed.

Lemma build_batch_rand env cfg temp fileLength st cmds st' :
  build_batch env cfg temp fileLength st = (Val cmds, st') →
  rand_pos st'
  = (1 + (length cmds - 1) * (if fuzzEnabled cfg then 3 else 1)
     + rand_pos st)%nat.
Proof.
  unfold build_batch. intros Hrun.
  apply bind_val_inv in Hrun as (ok & st1 & Hopen & Hrun).
  injection Hopen as <- <-.
  destruct (ofstream_ok env (opens st)); [|done]. cbn [negb] in Hrun.
  apply bind_val_inv in Hrun as (r & st2 & Hr & Hrun).
  injection Hr as <- <-.
  apply bind_val_inv in Hrun as (new & st3 & Hgen & Hrun).
  apply bind_val_inv in Hrun as ([] & st4 & Hw & Hrun).
  injection Hw as <-. injection Hrun as <- <-.
  pose proof Hgen as Hpos%gen_commands_rand.
  eapply gen_commands_inv in Hgen as (new' & -> & Hlen & _);
    [|cbn; apply lookup_insert_eq].
  cbn [app] in *. rewrite length_app. cbn [length].
  cbn in Hpos |- *. rewrite Hpos.
  pose proof (pipelineSize_range _ (proj1 (rand_val_range env (rand_pos st)))).
  rewrite Hlen. lia.
Qed.

Lemma loop_body_accounts env cfg temp out fileLength batchNum st st' :
  temp ≠ out →
  loop_body env cfg temp out fileLength batchNum st = (Val (), st') →
  let p := Z.to_nat (Z.rem (rand_val env (rand_pos st)) 10 + 1) in
  opens st' = (2 + opens st)%nat ∧
  length (pipeline st') = (p + 1 + length (pipeline st))%nat ∧
  reads st' = (p + 1 + reads st)%nat ∧
  replies st' = (p + 1 + replies st)%nat ∧
  rand_pos st'
  = (1 + p * (if fuzzEnabled cfg then 3 else 1) + rand_pos st)%nat ∧
  context st' = context st.
Proof.
  intros Hne Hbody p.
  apply loop_body_inv in Hbody as (cmds & st1 & Hb & _ & _ & ->); [|done].
  pose proof Hb as Hrand%build_batch_rand.
  apply build_batch_inv in Hb as (_ & new & -> & Hlen & _ & _ & Hst1).
  assert (length new = p) as Hp by (unfold p; lia).
  rewrite length_app in Hrand. cbn [length] in Hrand.
  replace (length new + 1 - 1)%nat with p in Hrand by lia.
  cbn [opens pipeline reads replies rand_pos context tick_opens set_fs
         answered add_reads push_commands].
  rewrite Hrand. rewrite Hst1 at 1 2 3 4 5.
  cbn [opens pipeline reads replies rand_pos context tick_opens staged].
  rewrite !length_app. cbn [length]. rewrite Hp.
  split_and!; lia || done.
Qed.

(** X4: an iteration that completes opens two output streams, hands the
    [p + 1] commands of its batch to the connection and reads [p + 1]
    replies, all of them delivered, where [p = rand() % 10 + 1]; it draws
    one random value for [p] and then one per command without fuzzing and
    three per command with fuzzing. *)
Theorem iteration_accounts env cfg temp out fileLength batchNum st st' :
  temp ≠ out →
  loop_body env cfg temp out fileLength batchNum st = (Val (), st') →
  let p := Z.to_nat (Z.rem (rand_val env (rand_pos st)) 10 + 1) in
  opens st' = (2 + opens st)%nat ∧
  length (pipeline st') = (p + 1 + length (pipeline st))%nat ∧
  reads st' = (p + 1 + reads st)%nat ∧
  replies st' = (p + 1 + replies st)%nat ∧
  rand_pos st'
  = (1 + p * (if fuzzEnabled cfg then 3 else 1) + rand_pos st)%nat ∧
  context st' = context st.
Proof. apply loop_body_accounts. Qed.

Lemma iteration_accounts_witness :
  let st := initial sample_fs in
  let st' := (loop_body (sample_env 9 99) (sample_cfg 1 true) sample_temp
                sample_output 2 1 st).2 in
  let p := Z.to_nat (Z.rem (rand_val (sample_env 9 99) (rand_pos st)) 10 + 1) in
  opens st' = (2 + opens st)%nat ∧
  length (pipeline st') = (p + 1 + length (pipeline st))%nat ∧
  reads st' = (p + 1 + reads st)%nat ∧
  replies st' = (p + 1 + replies st)%nat ∧
  rand_pos st'
  = (1 + p * (if fuzzEnabled (sample_cfg 1 true) then 3 else 1)
     + rand_pos st)%nat ∧
  context st' = context st.
Proof.
  apply (iteration_accounts (sample_env 9 99) (sample_cfg 1 true) sample_temp
           sample_output 2 1 (initial sample_fs)).
  - discriminate.
  - vm_compute. reflexivity.
Defined.

(** ** A run that returns 0 *)





(** ** Files the run leaves alone *)

Section OtherFiles.

Context (env : Env) (cfg : Config).
Context (tempFileName outputFileName : string) (fileLength : Z).

Local Abbreviation kept := (other_files_kept tempFileName outputFileName).

Lemma kept_same_fs st st' : fs st' = fs st → kept st st'.
Proof. intros H path _ _. by rewrite H. Qed.

Lemma kept_trans st1 st2 st3 : kept st1 st2 → kept st2 st3 → kept st1 st3.
Proof. intros H1 H2 path Ht Ho. by rewrite H2, H1. Qed.

Lemma kept_insert path s st :
  path = tempFileName ∨ path = outputFileName →
  kept st (set_fs (insert path s) st).
Proof.
  intros Hpath p Ht Ho. cbn. apply lookup_insert_ne. by intros ->; destruct Hpath.
Qed.

Lemma keeps_bind {A B} (c : prog A) (k : A → prog B) :
  keeps kept c → (∀ a, keeps kept (k a)) → keeps kept (c ≫= k).
Proof.
  intros Hc Hk st. unfold mbind, prog_bind.
  pose proof (Hc st) as Hst.
  destruct (c st) as [[a| |] st1]; cbn in *; [|done..].
  eapply kept_trans; [done|apply Hk].
Qed.

Lemma keeps_same_fs {A} (c : prog A) :
  (∀ st, fs (c st).2 = fs st) → keeps kept c.
Proof. intros H st. by apply kept_same_fs. Qed.

Lemma keeps_ret {A} (a : A) : keeps kept (mret a).
Proof. by apply keeps_same_fs. Qed.

Lemma keeps_ofstream_open path trunc :
  path = tempFileName ∨ path = outputFileName →
  keeps kept (ofstream_open env path trunc).
Proof.
  intros Hpath st. cbn. destruct (ofstream_ok env (opens st)).
  - intros p Ht Ho. cbn. apply lookup_insert_ne. by intros ->; destruct Hpath.
  - by apply kept_same_fs.
Qed.

Lemma keeps_write path s :
  path = tempFileName ∨ path = outputFileName → keeps kept (write path s).
Proof. intros Hpath st. by apply kept_insert. Qed.

Lemma keeps_write_line path line :
  path = tempFileName ∨ path = outputFileName →
  keeps kept (write_line path line).
Proof. intros Hpath st. by apply kept_insert. Qed.

Lemma keeps_fail {A} : keeps kept (redisFree;; @exit_with A 1).
Proof. by apply keeps_same_fs. Qed.

Lemma keeps_randomCommand file : keeps kept (randomCommand env file fileLength).
Proof.
  apply keeps_same_fs. intros st. unfold randomCommand.
  erewrite bind_val by reflexivity. by case_decide.
Qed.

Lemma keeps_fuzzCommand cmd b : keeps kept (fuzzCommand env cmd b).
Proof.
  apply keeps_same_fs. intros st. destruct b; [|done].
  destruct (decide (cmd = [])) as [->|Hne]; [done|].
  by destruct (fuzzCommand_nonempty env cmd st Hne) as (ch & _ & _ & _ & ->).
Qed.

Lemma keeps_gen_commands n : ∀ acc,
  keeps kept (gen_commands env cfg tempFileName fileLength n acc).
Proof.
  induction n as [|n IH]; intros acc; cbn [gen_commands]; [apply keeps_ret|].
  apply keeps_bind; [apply keeps_randomCommand|intros cmd].
  apply keeps_bind; [apply keeps_fuzzCommand|intros f].
  apply keeps_bind; [apply keeps_write_line; by left|intros _]. apply IH.
Qed.

Lemma keeps_build_batch :
  keeps kept (build_batch env cfg tempFileName fileLength).
Proof.
  unfold build_batch.
  apply keeps_bind; [apply keeps_ofstream_open; by left|intros ok].
  destruct ok; cbn [negb]; [|apply keeps_fail].
  apply keeps_bind; [by apply keeps_same_fs|intros r].
  apply keeps_bind; [apply keeps_gen_commands|intros cmds].
  apply keeps_bind; [apply keeps_write_line; by left|intros _].
  apply keeps_ret.
Qed.

Lemma keeps_copy_lines fuel : ∀ f line,
  keeps kept (copy_lines outputFileName fuel f line).
Proof.
  induction fuel as [|fuel IH]; intros f line; cbn [copy_lines];
    [apply keeps_ret|].
  destruct (getline f line) as [[f' line'] ok].
  destruct ok; [|apply keeps_ret].
  apply keeps_bind; [apply keeps_write_line; by right|intros _]. apply IH.
Qed.

Lemma keeps_loop_body batchNum :
  keeps kept
    (loop_body env cfg tempFileName outputFileName fileLength batchNum).
Proof.
  unfold loop_body.
  apply keeps_bind; [apply keeps_build_batch|intros cmds].
  apply keeps_bind;
    [apply keeps_same_fs; intros st; by rewrite send_batch_spec|intros _].
  apply keeps_bind; [|intros ok].
  { apply keeps_same_fs. intros st.
    by destruct (get_replies_cases env (length cmds) st)
      as [[_ ->]|(j & _ & _ & _ & ->)]. }
  destruct ok; cbn [negb]; [|apply keeps_fail].
  unfold log_batch.
  apply keeps_bind; [apply keeps_ofstream_open; by right|intros ok].
  destruct ok; cbn [negb]; [|apply keeps_fail].
  apply keeps_bind; [apply keeps_write; by right|intros _].
  apply keeps_bind; [by apply keeps_same_fs|intros f].
  apply keeps_copy_lines.
Qed.

Lemma keeps_main_loop k : ∀ batchNum,
  keeps kept
    (main_loop env cfg tempFileName outputFileName fileLength k batchNum).
Proof.
  induction k as [|k IH]; intros batchNum; cbn [main_loop]; [apply keeps_ret|].
  apply keeps_bind; [apply keeps_loop_body|intros _].
  case_decide; [by apply keeps_same_fs|apply IH].
Qed.

End OtherFiles.

(** X6: however a run ends, every file other than the scratch file and the
    log is what it was before; the command file in particular is only ever
    read. *)
Theorem main_leaves_other_files env cfg st path :
  mkstemp_res env ≠ Some path → path ≠ output_name env →
  fs (main env cfg st).2 !! path = fs st !! path.
Proof.
  intros Htemp Hout. unfold main, createTempFile.
  destruct (mkstemp_res env) as [temp|] eqn:Hmk; [|done].
  assert (path ≠ temp) as Hne by congruence.
  erewrite bind_val by reflexivity.
  erewrite bind_val by reflexivity.
  erewrite bind_val by reflexivity.
  cbn [fs set_fs].
  case_decide; [cbn; by rewrite lookup_insert_ne|].
  erewrite bind_val by reflexivity.
  destruct (connect_res env).
  - cbn. by rewrite lookup_insert_ne.
  - unfold mbind, prog_bind. cbn. by rewrite lookup_insert_ne.
  - unfold mbind at 1, prog_bind at 1.
    match goal with |- context [main_loop ?e ?c ?t ?o ?l ?k ?n ?s] =>
      pose proof (keeps_main_loop e c t o l k n s path Hne Hout) as Hkept;
      destruct (main_loop e c t o l k n s) as [[[]| |] st1]
    end; cbn in Hkept |- *.
    + unfold mbind, prog_bind. cbn.
      rewrite lookup_delete_ne by done. rewrite Hkept.
      by rewrite lookup_insert_ne.
    + rewrite Hkept. by rewrite lookup_insert_ne.
    + rewrite Hkept. by rewrite lookup_insert_ne.
Qed.

Lemma main_leaves_other_files_witness :
  fs (sample_run 99 2).2 !! "/root/cmds.txt"%string
  = fs (initial sample_fs) !! "/root/cmds.txt"%string.
Proof.
  apply (main_leaves_other_files (sample_env 99 2) (sample_cfg 2 false)
           (initial sample_fs) "/root/cmds.txt"%string); discriminate.
Defined.

(** ** Runs that cannot go wrong *)

(** A character that is not in the file is in none of its lines. *)
Lemma extract_absent (x : ascii) b :
  x ∉ b → (x ∉ (extract b).1.1) ∧ (x ∉ (extract b).1.2).
Proof.
  induction b as [|c b IH]; cbn [extract]; [done|].
  intros [Hc Hb]%not_elem_of_cons.
  case_decide; [by split; [apply not_elem_of_nil|]|].
  destruct (extract b) as [[l r] e]. cbn [fst snd] in *.
  destruct (IH Hb) as [Hl Hr]. split; [by apply not_elem_of_cons|done].
Qed.

Lemma getline_absent (x : ascii) f line :
  x ∉ buf f → x ∉ line →
  (x ∉ (getline f line).1.2) ∧ (x ∉ buf (getline f line).1.1).
Proof.
  intros Hb Hline. unfold getline.
  destruct (eofbit f || failbit f); [done|].
  destruct (buf f) as [|c b] eqn:Hbuf; [by split; apply not_elem_of_nil|].
  pose proof (extract_absent x (c :: b) Hb) as H.
  destruct (extract (c :: b)) as [[l r] e]. by destruct H.
Qed.

Lemma readLine_loop_absent (x : ascii) fuel : ∀ f line cur lineNum,
  x ∉ buf f → x ∉ line → x ∉ readLine_loop fuel f line cur lineNum.
Proof.
  induction fuel as [|fuel IH]; intros f line cur lineNum Hb Hline;
    cbn [readLine_loop]; [done|].
  pose proof (getline_absent x f line Hb Hline) as [H1 H2].
  destruct (getline f line) as [[f' line'] ok]. cbn [fst snd] in *.
  destruct (ok && (cur <? lineNum)); auto.
Qed.

Lemma readLineFromFile_absent (x : ascii) (m : gmap string str) path lineNum :
  (∀ text, m !! path = Some text → x ∉ text) →
  x ∉ readLineFromFile m path lineNum.
Proof.
  intros Hm. unfold readLineFromFile, open_in.
  apply readLine_loop_absent; [|apply not_elem_of_nil].
  destruct (m !! path) as [text|]; [by apply Hm|apply not_elem_of_nil].
Qed.

Lemma c_str_conversion_free s : conversion_free s → conversion_free (c_str s).
Proof.
  unfold conversion_free. induction s as [|c s IH]; [done|].
  intros [Hc Hs]%not_elem_of_cons. cbn [c_str].
  case_decide; [apply not_elem_of_nil|]. apply not_elem_of_cons. auto.
Qed.

Lemma to_uint_conversion_free d :
  conversion_free (lit (NilEmpty.string_of_uint d)).
Proof.
  unfold conversion_free. induction d; simpl;
    try apply not_elem_of_nil;
    (apply not_elem_of_cons; split; [discriminate|done]).
Qed.

Lemma to_string_conversion_free z : conversion_free (to_string z).
Proof.
  unfold to_string, NilZero.string_of_int, NilZero.string_of_uint.
  destruct (Z.to_int z) as [d|d]; destruct d; simpl;
    repeat (apply not_elem_of_cons; split; [discriminate|]);
    try apply not_elem_of_nil; apply to_uint_conversion_free.
Qed.

Section Safety.

Context (env : Env) (cfg : Config).
Context (tempFileName outputFileName : string) (fileLength : Z).

Hypothesis fileLength_nonzero : fileLength ≠ 0.
Hypothesis no_fuzz : fuzzEnabled cfg = false.
Hypothesis temp_other : commandsFile cfg ≠ tempFileName.
Hypothesis out_other : commandsFile cfg ≠ outputFileName.

Local Abbreviation J := (plain (commandsFile cfg)).
Local Abbreviation safe := (safe J).
Local Abbreviation any := (λ _, True).

Lemma plain_same st st' :
  fs st' = fs st → formats st' = formats st → J st → J st'.
Proof. intros Hfs Hfmt [H1 H2]. split; by rewrite ?Hfs, ?Hfmt. Qed.

Lemma plain_insert path s st :
  path = tempFileName ∨ path = outputFileName → J st →
  J (set_fs (insert path s) st).
Proof.
  intros Hpath [H1 H2]. split; [|done]. intros text. cbn.
  rewrite lookup_insert_ne; [apply H1|]. by intros ->; destruct Hpath.
Qed.

Lemma safe_bind {A B} (Q : A → Prop) (R : B → Prop) (c : prog A)
    (k : A → prog B) :
  safe Q c → (∀ a, Q a → safe R (k a)) → safe R (c ≫= k).
Proof.
  intros Hc Hk st HJ. unfold mbind, prog_bind.
  pose proof (Hc st HJ) as Hst.
  destruct (c st) as [[a| |] st1]; cbn [fst snd] in *; destruct Hst as [HQ HJ1].
  - by apply Hk.
  - done.
  - done.
Qed.

Lemma safe_val {A} (Q : A → Prop) (c : prog A) :
  (∀ st, ∃ a, (c st).1 = Val a ∧ Q a) →
  (∀ st, fs (c st).2 = fs st ∧ formats (c st).2 = formats st) →
  safe Q c.
Proof.
  intros Hval Hsame st HJ. destruct (Hval st) as (a & -> & HQ).
  split; [done|]. destruct (Hsame st). by eapply plain_same.
Qed.

Lemma safe_ret {A} (Q : A → Prop) (a : A) : Q a → safe Q (mret a).
Proof. intros HQ. apply safe_val; intros st; [by exists a|done]. Qed.

Lemma safe_fail {A} (Q : A → Prop) : safe Q (redisFree;; @exit_with A 1).
Proof. intros st HJ. cbn. split; [done|]. by eapply plain_same. Qed.

Lemma safe_write_line path line :
  path = tempFileName ∨ path = outputFileName → safe any (write_line path line).
Proof. intros Hpath st HJ. split; [done|]. by apply plain_insert. Qed.

Lemma safe_write path s :
  path = tempFileName ∨ path = outputFileName → safe any (write path s).
Proof. intros Hpath st HJ. split; [done|]. by apply plain_insert. Qed.

Lemma safe_ofstream_open path trunc :
  path = tempFileName ∨ path = outputFileName →
  safe any (ofstream_open env path trunc).
Proof.
  intros Hpath st HJ. split; [done|]. cbn.
  apply (plain_same (if ofstream_ok env (opens st)
                     then set_fs (insert path
                                    (if trunc then [] else content (fs st) path))
                            st
                     else st)); [done..|].
  destruct (ofstream_ok env (opens st)); [by apply plain_insert|done].
Qed.

(** Without fuzzing every command of a batch is a line of the command
    file. *)
Lemma safe_gen_commands n : ∀ acc,
  Forall conversion_free acc →
  safe (Forall conversion_free)
    (gen_commands env cfg tempFileName fileLength n acc).
Proof.
  induction n as [|n IH]; intros acc Hacc; [by apply safe_ret|].
  intros st HJ. cbn [gen_commands].
  erewrite bind_val by (by apply randomCommand_total).
  rewrite no_fuzz. erewrite bind_val by reflexivity.
  erewrite bind_val by reflexivity.
  apply IH.
  - apply Forall_app. split; [done|]. constructor; [|done].
    apply readLineFromFile_absent, HJ.
  - apply plain_insert; [by left|]. by eapply plain_same.
Qed.

Lemma pingCmd_conversion_free : conversion_free (pingCmd cfg).
Proof.
  unfold pingCmd, conversion_free. apply not_elem_of_app. split.
  - simpl. repeat (apply not_elem_of_cons; split; [discriminate|]).
    apply not_elem_of_nil.
  - apply to_string_conversion_free.
Qed.

Lemma safe_build_batch :
  safe (Forall conversion_free) (build_batch env cfg tempFileName fileLength).
Proof.
  unfold build_batch.
  eapply safe_bind; [apply safe_ofstream_open; by left|intros ok _].
  destruct ok; cbn [negb]; [|apply safe_fail].
  eapply (safe_bind any);
    [apply safe_val; intros st; [by eexists|done]|intros r _].
  eapply safe_bind; [by apply safe_gen_commands|intros cmds Hcmds].
  eapply safe_bind; [apply safe_write_line; by left|intros _ _].
  apply safe_ret, Forall_app. split; [done|].
  constructor; [apply pingCmd_conversion_free|done].
Qed.

(** Such a batch reaches the library as formats without [%]. *)
Lemma safe_send_batch cmds :
  Forall conversion_free cmds → safe any (send_batch cmds).
Proof.
  intros Hcmds st [H1 H2]. rewrite send_batch_spec. split; [done|].
  split; [done|]. cbn. apply Forall_app. split; [done|].
  apply Forall_map. eapply Forall_impl; [done|].
  apply c_str_conversion_free.
Qed.

Lemma safe_get_replies n : safe any (get_replies env n).
Proof.
  apply safe_val; intros st;
    destruct (get_replies_cases env n st) as [[_ ->]|(j & _ & _ & _ & ->)];
    by eauto.
Qed.

Lemma safe_copy_lines fuel : ∀ f line,
  safe any (copy_lines outputFileName fuel f line).
Proof.
  induction fuel as [|fuel IH]; intros f line; cbn [copy_lines];
    [by apply safe_ret|].
  destruct (getline f line) as [[f' line'] ok].
  destruct ok; [|by apply safe_ret].
  eapply safe_bind; [apply safe_write_line; by right|intros _ _]. apply IH.
Qed.

Lemma safe_loop_body batchNum :
  safe any (loop_body env cfg tempFileName outputFileName fileLength batchNum).
Proof.
  unfold loop_body.
  eapply safe_bind; [apply safe_build_batch|intros cmds Hcmds].
  eapply safe_bind; [by apply safe_send_batch|intros _ _].
  eapply safe_bind; [apply safe_get_replies|intros ok _].
  destruct ok; cbn [negb]; [|apply safe_fail].
  unfold log_batch.
  eapply safe_bind; [apply safe_ofstream_open; by right|intros ok _].
  destruct ok; cbn [negb]; [|apply safe_fail].
  eapply safe_bind; [apply safe_write; by right|intros _ _].
  eapply (safe_bind any);
    [apply safe_val; intros st; [by eexists|done]|intros f _].
  apply safe_copy_lines.
Qed.

Lemma safe_main_loop k : ∀ batchNum,
  batchNum + Z.of_nat k ≤ INT_MAX →
  safe any
    (main_loop env cfg tempFileName outputFileName fileLength k batchNum).
Proof.
  induction k as [|k IH]; intros batchNum Hmax; cbn [main_loop];
    [by apply safe_ret|].
  eapply safe_bind; [apply safe_loop_body|intros _ _].
  rewrite decide_False by lia. apply IH. lia.
Qed.

End Safety.

(** X7: let fuzzing be off, fewer than [INT_MAX] batches be asked for, and
    the command file, if there is one, hold at most [INT_MAX] lines and no
    [%]; let it be neither the scratch file nor the log.  Then, whatever
    the server and the file system answer to the calls of the run, it ends
    with status 0 or 1, and no format that [redisAppendCommand] received
    holds a [%]: the library never reads an argument that was not passed. *)
Theorem main_without_fuzz_is_safe env cfg st :
  fuzzEnabled cfg = false → numBatches cfg < INT_MAX →
  (∀ text, fs st !! commandsFile cfg = Some text →
     Z.of_nat (length (file_lines text)) ≤ INT_MAX ∧ "%"%char ∉ text) →
  mkstemp_res env ≠ Some (commandsFile cfg) →
  commandsFile cfg ≠ output_name env →
  Forall conversion_free (formats st) →
  ∃ code,
    exit_code (main env cfg st).1 = Some code ∧ (code = 0 ∨ code = 1) ∧
    Forall conversion_free (formats (main env cfg st).2).
Proof.
  intros Hfuzz Hn Hfile Htemp Hout Hfmt.
  destruct (main env cfg st) as [r st'] eqn:Hrun. cbn [fst snd].
  revert Hrun. unfold main, createTempFile.
  destruct (mkstemp_res env) as [temp|] eqn:Hmk;
    [|intros [= <- <-]; exists 1; eauto].
  assert (commandsFile cfg ≠ temp) as Hne by congruence.
  erewrite bind_val by reflexivity.
  erewrite bind_val by reflexivity.
  erewrite bind_val by reflexivity.
  cbn [fs set_fs].
  case_decide as Hlen; [intros [= <- <-]; exists 1; eauto|].
  erewrite bind_val by reflexivity.
  destruct (connect_res env); [intros [= <- <-]; exists 1; eauto..|].
  unfold mbind at 1, prog_bind at 1.
  match goal with |- context [main_loop ?e ?c ?t ?o ?l ?k ?n ?s] =>
    destruct (safe_main_loop e c t o l Hlen Hfuzz Hne Hout k n
                ltac:(unfold INT_MAX in *; lia) s) as [Hres [_ HJ]];
    [|destruct (main_loop e c t o l k n s) as [[[]| |] st1]]
  end.
  - split; [|done]. intros text. cbn. rewrite lookup_insert_ne by done.
    intros Htext. by apply Hfile.
  - intros [= <- <-]. exists 0. eauto.
  - intros [= <- <-]. exists code. cbn in *. eauto.
  - done.
Qed.

Lemma main_without_fuzz_is_safe_witness :
  ∃ code,
    exit_code (sample_run 1 99).1 = Some code ∧ (code = 0 ∨ code = 1) ∧
    Forall conversion_free (formats (sample_run 1 99).2).
Proof.
  apply (main_without_fuzz_is_safe (sample_env 1 99) (sample_cfg 2 false)
           (initial sample_fs)).
  - reflexivity.
  - vm_compute. reflexivity.
  - intros text Htext. change (sample_fs !! "/root/cmds.txt"%string = Some text)
      in Htext. unfold sample_fs in Htext.
    rewrite lookup_singleton_eq in Htext. injection Htext as <-. split.
    + vm_compute. discriminate.
    + intros H. apply list_elem_of_In in H. cbn in H.
      repeat (destruct H as [H|H]; [discriminate H|]). done.
  - discriminate.
  - discriminate.
  - constructor.
Defined.

(** ** Failures before the loop *)

Lemma countFileLines_no_text (m : gmap string str) path :
  m !! path = None ∨ m !! path = Some [] → countFileLines m path = 0.
Proof.
  intros [H|H]; unfold countFileLines, open_in, file_fuel; by rewrite H.
Qed.

(** X9: when the command file is missing or empty, [main] returns 1 without
    asking for a connection; when the connection cannot be opened, it
    returns 1 as well.  In both cases no random value was drawn, no output
    stream was opened, nothing was sent or read, and the one change to the
    files is the empty scratch file that [mkstemp] created and that is left
    behind. *)
Theorem startup_failure env cfg st temp :
  mkstemp_res env = Some temp →
  let no_commands :=
    commandsFile cfg = temp ∨ fs st !! commandsFile cfg = None
    ∨ fs st !! commandsFile cfg = Some [] in
  no_commands ∨ connect_res env ≠ ConnectOk →
  ∃ st',
    main env cfg st = (Exit 1, st') ∧
    fs st' = <[temp := []]> (fs st) ∧
    rand_pos st' = rand_pos st ∧ opens st' = opens st ∧
    pipeline st' = pipeline st ∧ reads st' = reads st ∧
    replies st' = replies st ∧
    (context st' = context st ∨ context st' = Freed) ∧
    (no_commands → context st' = context st).
Proof.
  intros Htemp no_commands Hfail.
  assert (no_commands →
          countFileLines (<[temp := []]> (fs st)) (commandsFile cfg) = 0)
    as Hzero.
  { intros Hno. apply countFileLines_no_text.
    destruct (decide (commandsFile cfg = temp)) as [->|Hne].
    - right. apply lookup_insert_eq.
    - rewrite lookup_insert_ne by done.
      destruct Hno as [?|[?|?]]; [done|by left|by right]. }
  unfold main.
  erewrite bind_val by (unfold createTempFile; by rewrite Htemp).
  erewrite bind_val by reflexivity.
  erewrite bind_val by reflexivity.
  cbn [fs set_fs].
  case_decide as Hlen.
  { eexists. split; [reflexivity|]. cbn. split_and!; try done. by left. }
  erewrite bind_val by reflexivity.
  destruct Hfail as [Hno|Hconn]; [by apply Hzero in Hno|].
  destruct (connect_res env); [| |done].
  - eexists. split; [reflexivity|]. cbn.
    split_and!; try done; by left.
  - eexists. split; [reflexivity|]. cbn.
    split_and!; try done; try (by right).
    intros Hno. by apply Hzero in Hno.
Qed.

Lemma startup_failure_witness :
  let cfg := sample_cfg 2 false in
  let st := initial ∅ in
  let no_commands :=
    commandsFile cfg = sample_temp ∨ fs st !! commandsFile cfg = None
    ∨ fs st !! commandsFile cfg = Some [] in
  ∃ st',
    main (sample_env 99 99) cfg st = (Exit 1, st') ∧
    fs st' = <[sample_temp := []]> (fs st) ∧
    rand_pos st' = rand_pos st ∧ opens st' = opens st ∧
    pipeline st' = pipeline st ∧ reads st' = reads st ∧
    replies st' = replies st ∧
    (context st' = context st ∨ context st' = Freed) ∧
    (no_commands → context st' = context st).
Proof.
  apply (startup_failure (sample_env 99 99) (sample_cfg 2 false) (initial ∅)
           sample_temp).
  - reflexivity.
  - left. right. left. reflexivity.
Defined.

(** ** [std::stoi] *)

Lemma read_digits_uint_acc d : ∀ (acc : positive) rest,
  (∀ c r, rest = c :: r → digit_val c = None) →
  read_digits (Zpos acc) (lit (NilEmpty.string_of_uint d) ++ rest)
  = Zpos (Pos.of_uint_acc d acc).
Proof.
  induction d as [|d IH|d IH|d IH|d IH|d IH|d IH|d IH|d IH|d IH|d IH];
    intros acc rest Hrest;
    unfold lit in *; cbn [NilEmpty.string_of_uint list_ascii_of_string app
                          read_digits Pos.of_uint_acc].
  1:{ destruct rest as [|c r]; [done|]. cbn [read_digits].
      by rewrite (Hrest c r). }
  all: match goal with
       | |- context [digit_val ?c] =>
           let v := eval vm_compute in (digit_val c) in
           change (digit_val c) with v; cbv iota
       end;
       match goal with
       | |- read_digits ?a _ = Zpos (Pos.of_uint_acc _ ?p) =>
           replace a with (Zpos p) by lia; by apply IH
       end.
Qed.

Lemma read_digits_uint d : ∀ rest,
  (∀ c r, rest = c :: r → digit_val c = None) →
  read_digits 0 (lit (NilEmpty.string_of_uint d) ++ rest)
  = Z.of_N (Pos.of_uint d).
Proof.
  induction d as [|d IH|d IH|d IH|d IH|d IH|d IH|d IH|d IH|d IH|d IH];
    intros rest Hrest.
  1:{ destruct rest as [|c r]; [done|]. cbn. by rewrite (Hrest c r). }
  1:{ unfold lit in *.
      cbn [NilEmpty.string_of_uint list_ascii_of_string app read_digits].
      change (digit_val "0") with (Some 0). cbv iota. by apply IH. }
  all: unfold lit in *;
       cbn [NilEmpty.string_of_uint list_ascii_of_string app read_digits
            Pos.of_uint Z.of_N];
       match goal with
       | |- context [digit_val ?c] =>
           let v := eval vm_compute in (digit_val c) in
           change (digit_val c) with v; cbv iota
       end;
       match goal with
       | |- read_digits ?a _ = Zpos (Pos.of_uint_acc _ ?p) =>
           replace a with (Zpos p) by lia
       end;
       by apply read_digits_uint_acc.
Qed.

Lemma digit_not_space_or_sign c :
  is_Some (digit_val c) →
  isspace c = false ∧ c ≠ "-"%char ∧ c ≠ "+"%char.
Proof.
  intros [d Hd].
  destruct c as [[] [] [] [] [] [] [] []]; vm_compute in Hd;
    try discriminate Hd; by split_and!.
Qed.

Lemma stoi_digits (s : str) c r :
  s = c :: r → is_Some (digit_val c) →
  stoi s = let v := read_digits 0 s in
           if (INT_MIN <=? v) && (v <=? INT_MAX) then Some v else None.
Proof.
  intros -> Hc.
  destruct (digit_not_space_or_sign c Hc) as (Hsp & Hm & Hp).
  destruct Hc as [d Hd].
  unfold stoi. cbn [skip_space]. rewrite Hsp.
  rewrite !decide_False by done. by rewrite Hd.
Qed.

Lemma stoi_minus_digits (s : str) c r :
  s = c :: r → is_Some (digit_val c) →
  stoi ("-"%char :: s)
  = let v := - read_digits 0 s in
    if (INT_MIN <=? v) && (v <=? INT_MAX) then Some v else None.
Proof.
  intros -> [d Hd].
  unfold stoi. cbn [skip_space].
  change (isspace "-") with false. cbv iota.
  rewrite decide_True by done. by rewrite Hd.
Qed.

Lemma skip_space_app spaces (s : str) :
  Forall (λ c, isspace c = true) spaces →
  skip_space (spaces ++ s) = skip_space s.
Proof.
  induction 1 as [|c spaces Hc _ IH]; [done|]. cbn. by rewrite Hc.
Qed.

Lemma uint_digits_start d rest :
  d ≠ Decimal.Nil →
  ∃ c r, lit (NilEmpty.string_of_uint d) ++ rest = c :: r ∧
         is_Some (digit_val c).
Proof.
  intros Hd. destruct d; [done|..]; eexists _, _; (split; [reflexivity|]);
    by vm_compute; eexists.
Qed.

(** The digits of a natural number, read back. *)
Lemma stoi_uint d rest :
  d ≠ Decimal.Nil →
  (∀ c r, rest = c :: r → digit_val c = None) →
  Z.of_N (Pos.of_uint d) ≤ INT_MAX →
  stoi (lit (NilEmpty.string_of_uint d) ++ rest) = Some (Z.of_N (Pos.of_uint d)).
Proof.
  intros Hd Hrest Hmax.
  destruct (uint_digits_start d rest Hd) as (c & r & Heq & Hc).
  rewrite (stoi_digits _ c r Heq Hc). cbv zeta.
  rewrite read_digits_uint by done.
  rewrite (proj2 (Z.leb_le _ _)) by (unfold INT_MIN; lia).
  by rewrite (proj2 (Z.leb_le _ _)) by done.
Qed.

Lemma stoi_minus_uint d rest :
  d ≠ Decimal.Nil →
  (∀ c r, rest = c :: r → digit_val c = None) →
  Z.of_N (Pos.of_uint d) ≤ - INT_MIN →
  stoi ("-"%char :: lit (NilEmpty.string_of_uint d) ++ rest)
  = Some (- Z.of_N (Pos.of_uint d)).
Proof.
  intros Hd Hrest Hmin.
  destruct (uint_digits_start d rest Hd) as (c & r & Heq & Hc).
  rewrite (stoi_minus_digits _ c r Heq Hc). cbv zeta.
  rewrite read_digits_uint by done.
  rewrite (proj2 (Z.leb_le _ _)) by (unfold INT_MIN in *; lia).
  by rewrite (proj2 (Z.leb_le _ _)) by (unfold INT_MAX; lia).
Qed.

Lemma string_of_uint_nonnil d :
  d ≠ Decimal.Nil → NilZero.string_of_uint d = NilEmpty.string_of_uint d.
Proof. by destruct d. Qed.

Lemma stoi_to_string z rest :
  INT_MIN ≤ z ≤ INT_MAX →
  (∀ c r, rest = c :: r → digit_val c = None) →
  stoi (to_string z ++ rest) = Some z.
Proof.
  intros Hz Hrest. unfold to_string.
  destruct z as [|p|p]; cbn [Z.to_int NilZero.string_of_int].
  - apply (stoi_uint (Decimal.D0 Decimal.Nil) rest); [done..|].
    vm_compute. discriminate.
  - pose proof (DecimalPos.Unsigned.of_to p) as Hp.
    rewrite string_of_uint_nonnil by apply DecimalPos.Unsigned.to_uint_nonnil.
    pose proof (stoi_uint (Pos.to_uint p) rest
                  (DecimalPos.Unsigned.to_uint_nonnil p) Hrest) as H.
    rewrite Hp in H. apply H. cbn [Z.of_N]. lia.
  - pose proof (DecimalPos.Unsigned.of_to p) as Hp.
    rewrite string_of_uint_nonnil by apply DecimalPos.Unsigned.to_uint_nonnil.
    pose proof (stoi_minus_uint (Pos.to_uint p) rest
                  (DecimalPos.Unsigned.to_uint_nonnil p) Hrest) as H.
    rewrite Hp in H. apply H. unfold INT_MIN in *. cbn [Z.of_N]. lia.
Qed.

Lemma stoi_skips_space spaces (s : str) :
  Forall (λ c, isspace c = true) spaces → stoi (spaces ++ s) = stoi s.
Proof. intros H. unfold stoi. by rewrite skip_space_app. Qed.

(** [std::stoi] reads back what [std::to_string] writes, for every [int];
    white space in front and anything behind that does not start with a
    digit make no difference. *)
Lemma stoi_round_trip z spaces rest :
  INT_MIN ≤ z ≤ INT_MAX →
  Forall (λ c, isspace c = true) spaces →
  (∀ c r, rest = c :: r → digit_val c = None) →
  stoi (spaces ++ to_string z ++ rest) = Some z.
Proof.
  intros Hz Hsp Hrest. rewrite stoi_skips_space by done.
  by apply stoi_to_string.
Qed.

Lemma stoi_round_trip_witness :
  stoi (lit "  " ++ to_string (-6379) ++ lit "abc") = Some (-6379).
Proof.
  apply (stoi_round_trip (-6379) (lit "  ") (lit "abc")).
  - split; vm_compute; discriminate.
  - repeat constructor.
  - intros c r [= <- <-]. reflexivity.
Defined.

Lemma skip_space_elem (s : str) c : c ∈ skip_space s → c ∈ s.
Proof.
  induction s as [|x s IH]; [done|]. cbn.
  destruct (isspace x); [|done]. intros H. right. auto.
Qed.

(** What [std::stoi] accepts is an [int], and the string holds a digit; a
    string without a digit, the empty string among them, throws. *)
Lemma stoi_accepts (s : str) v :
  stoi s = Some v →
  INT_MIN ≤ v ≤ INT_MAX ∧ ∃ c, c ∈ s ∧ is_Some (digit_val c).
Proof.
  unfold stoi. intros H.
  assert (∀ c, c ∈ skip_space s → c ∈ s) as Hsub
    by (intros c; apply skip_space_elem).
  destruct (skip_space s) as [|c1 r1].
  { done. }
  assert (∀ (negative : bool) (s2 : str),
            (∀ c, c ∈ s2 → c ∈ s) →
            match s2 with
            | c :: _ =>
                match digit_val c with
                | Some _ =>
                    let v := read_digits 0 s2 in
                    let v := if negative then - v else v in
                    if (INT_MIN <=? v) && (v <=? INT_MAX) then Some v else None
                | None => None
                end
            | [] => None
            end = Some v →
            INT_MIN ≤ v ≤ INT_MAX ∧ ∃ c, c ∈ s ∧ is_Some (digit_val c)) as Hgo.
  { intros negative [|c r] Hs2 Hv; [done|].
    destruct (digit_val c) as [d|] eqn:Hd; [|done].
    cbv zeta in Hv.
    destruct (_ <=? _) eqn:H1 in Hv; [|done].
    destruct (_ <=? _) eqn:H2 in Hv; [|done].
    injection Hv as <-.
    apply Z.leb_le in H1, H2. split; [done|].
    exists c. split; [apply Hs2; left|by rewrite Hd]. }
  repeat case_decide.
  - apply (Hgo true r1); [|done]. intros c Hc. apply Hsub. by right.
  - apply (Hgo false r1); [|done]. intros c Hc. apply Hsub. by right.
  - by apply (Hgo false (c1 :: r1)).
Qed.

Lemma stoi_accepts_witness :
  INT_MIN ≤ 6379 ≤ INT_MAX ∧
  ∃ c, c ∈ lit "6379abc" ∧ is_Some (digit_val c).
Proof.
  apply (stoi_accepts (lit "6379abc") 6379). vm_compute. reflexivity.
Defined.

(** ** The command line *)

Lemma find_char_app c (s r : str) :
  c ∉ s → find_char c (s ++ c :: r) = Some (length s).
Proof.
  induction s as [|x s IH]; intros Hs; cbn [app find_char length].
  - by rewrite decide_True.
  - apply not_elem_of_cons in Hs as [Hx Hs].
    rewrite decide_False by done. by rewrite IH.
Qed.

Lemma find_char_None c (s : str) : c ∉ s → find_char c s = None.
Proof.
  induction s as [|x s IH]; intros Hs; [done|]. cbn [find_char].
  apply not_elem_of_cons in Hs as [Hx Hs].
  rewrite decide_False by done. by rewrite IH.
Qed.

Lemma fuzz_flag_no_colon (s : str) : ":"%char ∈ s → is_fuzz_flag s = false.
Proof.
  intros Hs. apply bool_decide_eq_false. intros ->.
  apply list_elem_of_In in Hs. cbn in Hs.
  repeat (destruct Hs as [Hs|Hs]; [discriminate Hs|]). done.
Qed.

Lemma fuzz_flag_no_number (s : str) : is_Some (stoi s) → is_fuzz_flag s = false.
Proof.
  intros [v Hv]. apply bool_decide_eq_false. intros ->. discriminate Hv.
Qed.

(** X10: a command line with fewer than two arguments, or whose first
    argument has no colon, ends the program with status 1 before anything
    is done: no scratch file is created and no connection is opened. *)
Theorem usage_error env argv st :
  (length argv < 3)%nat ∨ (∃ a, argv !! 1%nat = Some a ∧ ":"%char ∉ a) →
  program env argv st = (Exit 1, st).
Proof.
  intros Hbad. unfold program.
  destruct argv as [|a0 [|a1 [|a2 rest]]]; try done.
  destruct Hbad as [Hlen|(a & [= <-] & Hcolon)]; [cbn in Hlen; lia|].
  cbn [parse_args]. by rewrite find_char_None.
Qed.

Lemma usage_error_witness :
  program (sample_env 99 99) [lit "fuzzer"; lit "--fuzz"; lit "10"]
    (initial sample_fs) = (Exit 1, initial sample_fs).
Proof.
  apply (usage_error (sample_env 99 99) [lit "fuzzer"; lit "--fuzz"; lit "10"]
           (initial sample_fs)).
  right. exists (lit "--fuzz"). split; [reflexivity|].
  intros H. apply list_elem_of_In in H. cbn in H.
  repeat (destruct H as [H|H]; [discriminate H|]). exact H.
Defined.

(** X11: a port or a number of batches that [std::stoi] refuses ends the
    program with the exception, not with the usage message; nothing was
    done before. *)
Theorem bad_number_throws env arg0 ip portText batches rest st :
  ":"%char ∉ ip →
  stoi portText = None ∨ stoi batches = None →
  program env (arg0 :: (ip ++ ":"%char :: portText) :: batches :: rest) st
  = (Crash, st).
Proof.
  intros Hip Hbad. unfold program, parse_args.
  rewrite find_char_app by done.
  replace (drop (S (length ip)) (ip ++ ":"%char :: portText)) with portText.
  2:{ rewrite cons_middle, app_assoc.
      rewrite drop_app_length'; [done|]. rewrite length_app. cbn. lia. }
  destruct (stoi portText) as [port|]; [|done].
  destruct Hbad as [Hport|Hbatches]; [done|]. by rewrite Hbatches.
Qed.

Lemma bad_number_throws_witness :
  program (sample_env 99 99)
    [lit "fuzzer"; lit "127.0.0.1" ++ ":"%char :: lit "redis"; lit "10"]
    (initial sample_fs) = (Crash, initial sample_fs).
Proof.
  apply (bad_number_throws (sample_env 99 99) (lit "fuzzer") (lit "127.0.0.1")
           (lit "redis") (lit "10") [] (initial sample_fs)).
  - intros H. apply list_elem_of_In in H. cbn in H.
    repeat (destruct H as [H|H]; [discriminate H|]). exact H.
  - left. reflexivity.
Defined.

(** X12: the command line [<ip>:<port> <n> ...] with an address without a
    colon and two [int]s written in decimal gives back [ip], [port] and
    [n]; the command file is the third argument or else
    [/root/redisCommands30.txt], the protocol version the fourth or else
    [-2], and fuzzing is on exactly when some argument from the third on is
    [--fuzz]. *)
Theorem parse_args_round_trip arg0 ip port n rest :
  ":"%char ∉ ip → INT_MIN ≤ port ≤ INT_MAX → INT_MIN ≤ n ≤ INT_MAX →
  parse_args (arg0 :: (ip ++ ":"%char :: to_string port) :: to_string n :: rest)
  = Val (mk_Config ip port n
           (string_of_list_ascii
              (default (lit "/root/redisCommands30.txt") (rest !! 0%nat)))
           (default (lit "-2") (rest !! 1%nat))
           (existsb is_fuzz_flag rest)).
Proof.
  intros Hip Hport Hn. unfold parse_args.
  rewrite find_char_app by done.
  replace (drop (S (length ip)) (ip ++ ":"%char :: to_string port))
    with (to_string port).
  2:{ rewrite cons_middle, app_assoc.
      rewrite drop_app_length'; [done|]. rewrite length_app. cbn. lia. }
  rewrite take_app_length.
  assert (stoi (to_string port) = Some port) as ->.
  { rewrite <- (app_nil_r (to_string port)). by apply stoi_to_string. }
  assert (stoi (to_string n) = Some n) as Hstoi.
  { rewrite <- (app_nil_r (to_string n)). by apply stoi_to_string. }
  rewrite Hstoi. cbn [existsb].
  rewrite fuzz_flag_no_colon
    by (apply elem_of_app; right; apply list_elem_of_here).
  rewrite fuzz_flag_no_number by (by rewrite Hstoi).
  cbn [orb]. by destruct rest as [|file [|version rest]].
Qed.

Lemma parse_args_round_trip_witness :
  parse_args [lit "fuzzer"; lit "127.0.0.1" ++ ":"%char :: to_string 6379;
              to_string 5000; lit "/root/cmds.txt"; lit "3"; lit "--fuzz"]
  = Val (mk_Config (lit "127.0.0.1") 6379 5000 "/root/cmds.txt" (lit "3") true).
Proof.
  apply (parse_args_round_trip (lit "fuzzer") (lit "127.0.0.1") 6379 5000
           [lit "/root/cmds.txt"; lit "3"; lit "--fuzz"]).
  - intros H. apply list_elem_of_In in H. cbn in H.
    repeat (destruct H as [H|H]; [discriminate H|]). exact H.
  - split; vm_compute; discriminate.
  - split; vm_compute; discriminate.
Defined.

(** X13: when the command line is accepted with fuzzing on, [--fuzz] stands
    at the third argument or later, so a third argument exists and it is
    taken as the command file: fuzzing never goes with the default command
    file, and [<ip>:<port> <n> --fuzz] reads its commands from a file named
    [--fuzz]. *)
Theorem fuzz_flag_is_also_positional argv cfg :
  parse_args argv = Val cfg → fuzzEnabled cfg = true →
  (4 ≤ length argv)%nat ∧
  string_of_list_ascii <$> argv !! 3%nat = Some (commandsFile cfg) ∧
  (∃ i, (3 ≤ i)%nat ∧ argv !! i = Some (lit "--fuzz")) ∧
  (length argv = 4%nat → commandsFile cfg = "--fuzz"%string).
Proof.
  destruct argv as [|a0 [|ipPort [|batches rest]]]; try done.
  unfold parse_args.
  destruct (find_char ":"%char ipPort) as [colonPos|] eqn:Hcolon; [|done].
  destruct (stoi (drop (S colonPos) ipPort)) as [port|]; [|done].
  destruct (stoi batches) as [n|] eqn:Hn; [|done].
  intros [= <-]. cbn [fuzzEnabled commandsFile existsb].
  assert (is_fuzz_flag ipPort = false) as ->.
  { apply bool_decide_eq_false. intros ->. discriminate Hcolon. }
  rewrite fuzz_flag_no_number by (by rewrite Hn). cbn [orb].
  intros Hflag.
  apply existsb_exists in Hflag as (x & Hx & Hfuzz).
  apply bool_decide_eq_true in Hfuzz as ->.
  apply list_elem_of_In, list_elem_of_lookup in Hx as [i Hi].
  destruct rest as [|file rest]; [done|].
  split_and!.
  - cbn. lia.
  - done.
  - exists (3 + i)%nat. split; [lia|done].
  - intros Hlen. destruct rest; [|cbn in Hlen; lia].
    destruct i; [|done]. by injection Hi as ->.
Qed.

Lemma fuzz_flag_is_also_positional_witness :
  let argv := [lit "fuzzer"; lit "127.0.0.1:6379"; lit "10"; lit "--fuzz"] in
  let cfg := mk_Config (lit "127.0.0.1") 6379 10 "--fuzz" (lit "-2") true in
  (4 ≤ length argv)%nat ∧
  string_of_list_ascii <$> argv !! 3%nat = Some (commandsFile cfg) ∧
  (∃ i, (3 ≤ i)%nat ∧ argv !! i = Some (lit "--fuzz")) ∧
  (length argv = 4%nat → commandsFile cfg = "--fuzz"%string).
Proof.
  apply (fuzz_flag_is_also_positional
           [lit "fuzzer"; lit "127.0.0.1:6379"; lit "10"; lit "--fuzz"]).
  - vm_compute. reflexivity.
  - reflexivity.
Defined.

(** X14: the parameters of an accepted command line: there are at least two
    arguments, the address is what stands before the first colon of the
    first one, and the port and the number of batches are [int]s. *)
Theorem parse_args_ints argv cfg :
  parse_args argv = Val cfg →
  (3 ≤ length argv)%nat ∧
  (":"%char ∉ ip cfg) ∧
  (∃ ipPort, argv !! 1%nat = Some ipPort ∧ ip cfg `prefix_of` ipPort ∧
             ipPort !! length (ip cfg) = Some ":"%char) ∧
  INT_MIN ≤ port cfg ≤ INT_MAX ∧
  INT_MIN ≤ numBatches cfg ≤ INT_MAX.
Proof.
  destruct argv as [|a0 [|ipPort [|batches rest]]]; try done.
  unfold parse_args.
  destruct (find_char ":"%char ipPort) as [colonPos|] eqn:Hcolon; [|done].
  destruct (stoi (drop (S colonPos) ipPort)) as [p|] eqn:Hp; [|done].
  destruct (stoi batches) as [n|] eqn:Hn; [|done].
  intros [= <-]. cbn [ip port numBatches].
  apply stoi_accepts in Hp as [Hp _]. apply stoi_accepts in Hn as [Hn _].
  assert (ipPort !! colonPos = Some ":"%char ∧ ":"%char ∉ take colonPos ipPort)
    as [Hat Hbefore].
  { clear -Hcolon. revert colonPos Hcolon.
    induction ipPort as [|x s IH]; intros colonPos Hcolon; [done|].
    cbn [find_char] in Hcolon. case_decide as Hx.
    - injection Hcolon as <-. subst x. split; [done|apply not_elem_of_nil].
    - destruct (find_char ":"%char s) as [k|]; [|done].
      injection Hcolon as <-. destruct (IH k eq_refl) as [H1 H2].
      split; [done|]. cbn. apply not_elem_of_cons. split; [congruence|done]. }
  pose proof (lookup_lt_Some _ _ _ Hat) as Hlt.
  split_and!; try done.
  - cbn. lia.
  - exists ipPort. split_and!; [done|apply prefix_take|].
    by rewrite length_take, Nat.min_l by lia.
  - lia.
  - lia.
  - lia.
  - lia.
Qed.

Lemma parse_args_ints_witness :
  let argv := [lit "fuzzer"; lit "127.0.0.1:6379"; lit "10"; lit "--fuzz"] in
  let cfg := mk_Config (lit "127.0.0.1") 6379 10 "--fuzz" (lit "-2") true in
  (3 ≤ length argv)%nat ∧
  (":"%char ∉ ip cfg) ∧
  (∃ ipPort, argv !! 1%nat = Some ipPort ∧ ip cfg `prefix_of` ipPort ∧
             ipPort !! length (ip cfg) = Some ":"%char) ∧
  INT_MIN ≤ port cfg ≤ INT_MAX ∧
  INT_MIN ≤ numBatches cfg ≤ INT_MAX.
Proof.
  apply (parse_args_ints
           [lit "fuzzer"; lit "127.0.0.1:6379"; lit "10"; lit "--fuzz"]).
  vm_compute. reflexivity.
Defined.

(** ** The names of the scratch file and of the log *)

(** X15: whatever the time stamp is, the name of the log differs from every
    name that [mkstemp] makes of the template with characters other than a
    full stop (it uses letters and digits), so the scratch file and the log
    are never the same file. *)
Theorem scratch_and_log_names_differ suffix timestamp :
  "."%char ∉ suffix → temp_file_name suffix ≠ output_file_name timestamp.
Proof.
  intros Hdot Heq. unfold temp_file_name, output_file_name in Heq.
  apply (f_equal list_ascii_of_string) in Heq.
  rewrite !list_ascii_of_string_of_list_ascii in Heq.
  apply app_inv_head in Heq. apply Hdot. rewrite Heq.
  apply elem_of_app. right. apply list_elem_of_here.
Qed.

Lemma scratch_and_log_names_differ_witness :
  temp_file_name (lit "a1B2c3") ≠ output_file_name (lit "20240101120000").
Proof.
  apply (scratch_and_log_names_differ (lit "a1B2c3") (lit "20240101120000")).
  intros H. apply list_elem_of_In in H. cbn in H.
  repeat (destruct H as [H|H]; [discriminate H|]). exact H.
Defined.

(** The sample names are such names. *)
Example sample_names :
  sample_temp = temp_file_name (lit "a1B2c3") ∧
  sample_output = output_file_name (lit "20240101120000").
Proof. split; reflexivity. Qed.

(** ** More on the loop *)


